(** * A shallow embedding of [main.py]: nodes, signed transactions, blocks,
      proof-of-work mining and the hash-linked chain.

    Python objects that the program mutates (lists, [Transactions], [Block],
    [Blockchain] instances) live in a heap indexed by locations, so aliasing
    between a pool and its snapshot is visible.  [Node] and [Transaction]
    instances are never written after construction and are embedded as
    values.  A Python [str] is a [string] whose characters are the code
    points below 256; a Python [int] is a [Z].  The interpreter's limits on
    memory and on the number of digits of an integer rendered as text are
    not represented.  The printing methods ([__str__], [dump]) and [main]
    are left out. *)

From Stdlib Require Import ZArith String Ascii List Lia.
From Stdlib.Strings Require Import Byte.
From Stdlib.Numbers Require Import DecimalString DecimalZ.
From stdpp Require Import gmap strings list.

Local Open Scope Z_scope.

(** ** Bytes and text *)

Definition bytes := list byte.

Definition byte_to_Z (b : byte) : Z := Z.of_N (Byte.to_N b).

Definition byte_of_Z (z : Z) : byte :=
  match Byte.of_N (Z.to_N (z mod 256)) with
  | Some b => b
  | None => x00
  end.

Definition ord (c : ascii) : Z := Z.of_N (N_of_ascii c).
Definition chr (z : Z) : ascii := ascii_of_N (Z.to_N z).

(** The double-quote character, written by code. *)
Definition dquote : ascii := chr 34.

(** [str.encode('utf-8')] on code points below 256: one byte below 128,
    two bytes from 128 on. *)
Definition utf8_char (c : ascii) : bytes :=
  let n := ord c in
  if n <? 128 then [byte_of_Z n]
  else [byte_of_Z (192 + n / 64); byte_of_Z (128 + n mod 64)].

Fixpoint encode_utf8 (s : string) : bytes :=
  match s with
  | EmptyString => []
  | String c s' => utf8_char c ++ encode_utf8 s'
  end.

(** Lower-case hexadecimal digit of a value in [0, 16). *)
Definition hexdigit (n : Z) : ascii :=
  if n <? 10 then chr (48 + n) else chr (87 + n).

(** [binascii.hexlify(b).decode('ASCII')]: two digits per byte; the output
    of [hexlify] is ASCII, so the decoding step cannot fail. *)
Fixpoint hexlify (b : bytes) : string :=
  match b with
  | [] => EmptyString
  | x :: b' =>
      String (hexdigit (byte_to_Z x / 16))
        (String (hexdigit (byte_to_Z x mod 16)) (hexlify b'))
  end.

(** The value of [s * n] for a [str] and an [int], when the interpreter can
    build it: empty when [n <= 0].  What [s * n] raises otherwise is
    [str_mul_error] below. *)
Fixpoint str_repeat (s : string) (n : nat) : string :=
  match n with
  | O => EmptyString
  | S n' => s +:+ str_repeat s n'
  end.

Definition str_mul (s : string) (n : Z) : string := str_repeat s (Z.to_nat n).

(** [s.endswith(suffix)]: the last [len(suffix)] characters of [s] are
    [suffix]. *)
Definition endswith (s suffix : string) : bool :=
  let n := String.length s in
  let m := String.length suffix in
  (m <=? n)%nat && String.eqb (substring (n - m) m s) suffix.

(** The item [xs[i]] of a sequence, if the index is in range: a negative
    index counts from the end. *)
Definition py_index {A} (xs : list A) (i : Z) : option A :=
  let n := Z.of_nat (length xs) in
  let j := if i <? 0 then i + n else i in
  if (j <? 0) || (n <=? j) then None else xs !! Z.to_nat j.

(** [str(i)] for an [int]. *)
Definition str_int (z : Z) : string := NilZero.string_of_int (Z.to_int z).

(** ** SHA-256 (FIPS 180-4) on 32-bit words held in [Z] *)

Module SHA256.
(** Wrap-around to 32 bits is a mask with [2^32 - 1]. *)
Definition mask32 (x : Z) : Z := Z.land x 0xFFFFFFFF.
Definition add32 (x y : Z) : Z := mask32 (x + y).
Definition rotr (n x : Z) : Z :=
  Z.lor (Z.shiftr x n) (mask32 (Z.shiftl x (32 - n))).
Definition not32 (x : Z) : Z := Z.lxor x 0xFFFFFFFF.
Definition Ch (x y z : Z) : Z := Z.lxor (Z.land x y) (Z.land (not32 x) z).
Definition Maj (x y z : Z) : Z :=
  Z.lxor (Z.lxor (Z.land x y) (Z.land x z)) (Z.land y z).
Definition Sigma0 (x : Z) : Z :=
  Z.lxor (Z.lxor (rotr 2 x) (rotr 13 x)) (rotr 22 x).
Definition Sigma1 (x : Z) : Z :=
  Z.lxor (Z.lxor (rotr 6 x) (rotr 11 x)) (rotr 25 x).
Definition sigma0 (x : Z) : Z :=
  Z.lxor (Z.lxor (rotr 7 x) (rotr 18 x)) (Z.shiftr x 3).
Definition sigma1 (x : Z) : Z :=
  Z.lxor (Z.lxor (rotr 17 x) (rotr 19 x)) (Z.shiftr x 10).

(** The constants are the first thirty-two bits of the fractional parts of
    the cube roots (for [K]) and of the square roots (for [H0]) of the first
    primes; they are computed here from that definition. *)
Definition is_prime (n : Z) : bool :=
forallb (fun k => negb (n mod Z.of_nat k =? 0)) (seq 2 (Z.to_nat n - 2)).

Definition primes : list Z :=
firstn 64 (filter is_prime (map Z.of_nat (seq 2 400))).

(** The largest [r] below [2^bits] with [r^3 <= n], found bit by bit. *)
Fixpoint cube_root (bits : nat) (n r : Z) : Z :=
match bits with
| O => r
| S b =>
    let r' := r + 2 ^ Z.of_nat b in
    cube_root b n (if r' * r' * r' <=? n then r' else r)
end.

Definition K : list Z :=
Eval vm_compute in map (fun p => mask32 (cube_root 40 (p * 2 ^ 96) 0)) primes.

Definition root_word (i : nat) : Z :=
mask32 (Z.sqrt (nth i primes 0 * 2 ^ 64)).

Record state := State
  { sa : Z; sb : Z; sc : Z; sd : Z; se : Z; sf : Z; sg : Z; sh : Z }.

Definition H0 : state :=
Eval vm_compute in
  State (root_word 0) (root_word 1) (root_word 2) (root_word 3)
        (root_word 4) (root_word 5) (root_word 6) (root_word 7).

Definition round (s : state) (k w : Z) : state :=
  let t1 :=
    add32 (add32 (add32 (add32 (sh s) (Sigma1 (se s)))
                        (Ch (se s) (sf s) (sg s))) k) w in
  let t2 := add32 (Sigma0 (sa s)) (Maj (sa s) (sb s) (sc s)) in
  State (add32 t1 t2) (sa s) (sb s) (sc s)
        (add32 (sd s) t1) (se s) (sf s) (sg s).

(** The schedule is kept as a window of the sixteen latest words, the
    oldest first. *)
Definition next_word (w : list Z) : Z :=
  add32 (add32 (add32 (sigma1 (nth 14 w 0)) (nth 9 w 0))
               (sigma0 (nth 1 w 0))) (nth 0 w 0).

Fixpoint rounds (ks : list Z) (w : list Z) (s : state) : state :=
  match ks with
  | [] => s
  | k :: ks' => rounds ks' (tl w ++ [next_word w]) (round s k (hd 0 w))
  end.

Definition compress (h : state) (block : list Z) : state :=
  let s := rounds K block h in
  State (add32 (sa h) (sa s)) (add32 (sb h) (sb s))
        (add32 (sc h) (sc s)) (add32 (sd h) (sd s))
        (add32 (se h) (se s)) (add32 (sf h) (sf s))
        (add32 (sg h) (sg s)) (add32 (sh h) (sh s)).

Definition pad (msg : list Z) : list Z :=
  let len := Z.of_nat (length msg) in
  msg ++ [128] ++ repeat 0 (Z.to_nat ((55 - len) mod 64))
      ++ map (fun i => Z.land (Z.shiftr (8 * len) (8 * i)) 255)
             [7; 6; 5; 4; 3; 2; 1; 0].

Fixpoint words (bs : list Z) : list Z :=
  match bs with
  | b0 :: b1 :: b2 :: b3 :: rest =>
      (((b0 * 256 + b1) * 256 + b2) * 256 + b3) :: words rest
  | _ => []
  end.

Fixpoint blocks (n : nat) (ws : list Z) (h : state) : state :=
  match n with
  | O => h
  | S n' => blocks n' (skipn 16 ws) (compress h (firstn 16 ws))
  end.

Definition hash (msg : bytes) : state :=
  let ws := words (pad (map byte_to_Z msg)) in
  blocks (length ws / 16)%nat ws H0.

Definition word_bytes (x : Z) : bytes :=
  [ byte_of_Z (Z.shiftr x 24); byte_of_Z (Z.shiftr x 16);
    byte_of_Z (Z.shiftr x 8); byte_of_Z x ].

(** [hashlib.sha256(msg).digest()], also [SHA256.new(msg).digest()]. *)
Definition digest (msg : bytes) : bytes :=
  let s := hash msg in
  word_bytes (sa s) ++ word_bytes (sb s) ++ word_bytes (sc s)
    ++ word_bytes (sd s) ++ word_bytes (se s) ++ word_bytes (sf s)
    ++ word_bytes (sg s) ++ word_bytes (sh s).

(** [hashlib.sha256(msg).hexdigest()]. *)
Definition hexdigest (msg : bytes) : string := hexlify (digest msg).
End SHA256.

(** [sha256(message)] of the source: the hexadecimal SHA-256 digest of the
    UTF-8 encoding of a string. *)
Definition sha256 (message : string) : string :=
  SHA256.hexdigest (encode_utf8 message).

(** ** [str()] of the values the program renders *)

(** A naive [datetime.datetime], as [datetime.datetime.now()] returns it. *)
Record datetime := Datetime
  { year : Z; month : Z; day : Z;
    hour : Z; minute : Z; second : Z; microsecond : Z }.

(** The Python values that occur in the two dictionaries of the program. *)
Inductive pyval :=
| PyNone
| PyInt (z : Z)
| PyStr (s : string)
| PyDatetime (d : datetime).

(** A dictionary literal: its items in insertion order. *)
Definition pydict := list (string * pyval).

Fixpoint str_contains (c : ascii) (s : string) : bool :=
  match s with
  | EmptyString => false
  | String a s' => Ascii.eqb a c || str_contains c s'
  end.

(** [repr] of a [str] takes single quotes unless the string has a single
    quote and no double quote. *)
Definition repr_quote (s : string) : ascii :=
  if str_contains "'" s && negb (str_contains dquote s) then dquote else "'"%char.

Definition hex_escape (c : ascii) : string :=
  String "\" (String "x" (String (hexdigit (ord c / 16))
    (String (hexdigit (ord c mod 16)) EmptyString))).

(** How [repr] writes one character inside the quotes. *)
Definition repr_char (quote c : ascii) : string :=
  let n := ord c in
  if Ascii.eqb c quote || Ascii.eqb c "\" then String "\" (String c EmptyString)
  else if n =? 9 then "\t"
  else if n =? 10 then "\n"
  else if n =? 13 then "\r"
  else if (n <? 32) || (n =? 127) then hex_escape c
  else if n <? 127 then String c EmptyString
  else if (n <=? 160) || (n =? 173) then hex_escape c
  else String c EmptyString.

Fixpoint repr_chars (quote : ascii) (s : string) : string :=
  match s with
  | EmptyString => EmptyString
  | String c s' => repr_char quote c +:+ repr_chars quote s'
  end.

Definition repr_str (s : string) : string :=
  let q := repr_quote s in
  String q (repr_chars q s +:+ String q EmptyString).

Fixpoint join (sep : string) (l : list string) : string :=
  match l with
  | [] => EmptyString
  | [x] => x
  | x :: l' => x +:+ sep +:+ join sep l'
  end.

(** [datetime.__repr__]: a trailing zero microsecond is dropped, then a
    trailing zero second. *)
Definition datetime_fields (d : datetime) : list Z :=
  let base := [year d; month d; day d; hour d; minute d] in
  if microsecond d =? 0 then
    if second d =? 0 then base else base ++ [second d]
  else base ++ [second d; microsecond d].

Definition repr_datetime (d : datetime) : string :=
  "datetime.datetime(" +:+ join ", " (map str_int (datetime_fields d)) +:+ ")".

Definition repr (v : pyval) : string :=
  match v with
  | PyNone => "None"
  | PyInt z => str_int z
  | PyStr s => repr_str s
  | PyDatetime d => repr_datetime d
  end.

Definition repr_item (kv : string * pyval) : string :=
  repr_str (fst kv) +:+ ": " +:+ repr (snd kv).

(** [str(d)] for a dictionary [d]. *)
Definition str_dict (d : pydict) : string :=
  "{" +:+ join ", " (map repr_item d) +:+ "}".

(** ** The libraries and services the program calls *)

(** PyCryptodome's RSA keys and PKCS#1 v1.5 signer, the wall clock and the
    memory of the interpreter.  Key generation and signing draw on the
    operating system's random source, whose state is [Entropy];
    [wall_clock k] is the reading of the [k]-th call of
    [datetime.datetime.now()]; [str_capacity] is the length of the longest
    string the interpreter can allocate for a repetition [s * n]: a longer
    one raises [MemoryError]. *)
Class Platform := {
  RsaKey : Type;
  Entropy : Type;
  RSA_generate : Z -> Entropy -> RsaKey * Entropy;
  public_key : RsaKey -> RsaKey;
  export_key : RsaKey -> bytes;
  PKCS1_v1_5_sign : RsaKey -> bytes -> Entropy -> bytes * Entropy;
  wall_clock : nat -> datetime;
  str_capacity : Z
}.

(** The signature bytes do not depend on the random source: PKCS#1 v1.5
    (RSASSA-PKCS1-v1_5) pads deterministically. *)
Definition deterministic_signing `{Platform} : Prop :=
  forall (k : RsaKey) (h : bytes) (r r' : Entropy),
    fst (PKCS1_v1_5_sign k h r) = fst (PKCS1_v1_5_sign k h r').

(** ** Values and heap objects *)

(** A [Node] instance: its name and its two keys. *)
Record node `{Platform} := MkNode
  { name : string; _private_key : RsaKey; _public_key : RsaKey }.
Arguments MkNode {_} _ _ _.

(** A [Transaction] instance.  The value is an [int], as in every call of
    the program; the timestamp is the clock reading taken in [__init__]. *)
Record transaction `{Platform} := MkTransaction
  { sender : node; receiver : node; value : Z; timestamp : datetime }.
Arguments MkTransaction {_} _ _ _ _.

Definition loc := positive.
Bind Scope positive_scope with loc.

(** What a list slot holds: a transaction, or a reference to an object. *)
Inductive val `{Platform} :=
| VTransaction (t : transaction)
| VRef (l : loc).

(** The mutable objects, one constructor per class, with the attributes
    the class's [__init__] assigns. *)
Inductive obj `{Platform} :=
| PyList (items : list val)
| TransactionsObj (lst : loc) (count : Z)
| BlockObj (verified_transactions : loc) (previous_hash : string)
           (difficulty : Z) (transaction_hash : string) (nonce : option Z)
| BlockchainObj (lst : loc) (count : Z) (last_hash : string).

Record world `{Platform} := World
  { heap : gmap loc obj; ticks : nat; entropy : Entropy }.
Arguments World {_} _ _ _.

Definition with_heap `{Platform} (h : gmap loc obj) (w : world) : world :=
  World h (ticks w) (entropy w).

(** [IndexError], [AttributeError], [TypeError], [OverflowError] and
    [MemoryError] are Python's own.  [EmptyChainError] is the class the
    specification names for mining an empty chain; the program defines no
    exception class. *)
Inductive exn :=
| IndexError | AttributeError | TypeError | EmptyChainError
| OverflowError | MemoryError.

(** [sys.maxsize], the largest index, on a 64-bit build of CPython. *)
Definition maxsize : Z := 2 ^ 63 - 1.

(** What [s * n] raises, if anything.  A count that does not fit an index
    raises [OverflowError].  A count below one gives the empty string and
    a count of one gives [s] itself, and neither allocates.  Otherwise a
    result longer than [sys.maxsize] raises [OverflowError], and one the
    interpreter cannot allocate raises [MemoryError]. *)
Definition str_mul_error `{Platform} (s : string) (n : Z) : option exn :=
  let len := Z.of_nat (String.length s) in
  if (n <? - maxsize - 1) || (maxsize <? n) then Some OverflowError
  else if n <? 2 then None
  else if maxsize / n <? len then Some OverflowError
  else if (0 <? n * len) && (str_capacity <? n * len) then Some MemoryError
  else None.

(** ** The monad of the program: state, exceptions and a fuel bound *)

Inductive outcome `{Platform} (A : Type) :=
| Ok (a : A) (w : world)
| Raise (e : exn) (w : world)
| OutOfFuel.
Arguments Ok {_ _} a w.
Arguments Raise {_ _} e w.
Arguments OutOfFuel {_ _}.

Definition M `{Platform} (A : Type) : Type := world -> outcome A.

Definition ret `{Platform} {A} (a : A) : M A := fun w => Ok a w.

Definition bind `{Platform} {A B} (m : M A) (f : A -> M B) : M B :=
  fun w =>
    match m w with
    | Ok a w' => f a w'
    | Raise e w' => Raise e w'
    | OutOfFuel => OutOfFuel
    end.

Definition raise `{Platform} {A} (e : exn) : M A := fun w => Raise e w.

Definition out_of_fuel `{Platform} {A} : M A := fun _ => OutOfFuel.

Notation "x <- m ;; k" := (bind m (fun x => k))
  (at level 100, m at next level, right associativity).
Notation "m ;; k" := (bind m (fun _ => k))
  (at level 100, right associativity).

Section Primitives.
Context `{Platform}.

(** A new object gets a location the heap does not use yet. *)
Definition alloc (o : obj) : M loc :=
  fun w =>
    let l := fresh (dom (heap w)) in
    Ok l (with_heap (<[l := o]> (heap w)) w).

(** Reading an object.  A reference always points to an object in Python;
    a location the heap does not hold, like an object of a class without
    the attribute asked for, ends the call with [AttributeError]. *)
Definition load (l : loc) : M obj :=
  fun w =>
    match heap w !! l with
    | Some o => Ok o w
    | None => Raise AttributeError w
    end.

Definition store (l : loc) (o : obj) : M unit :=
  fun w => Ok tt (with_heap (<[l := o]> (heap w)) w).

(** [datetime.datetime.now()] *)
Definition datetime_now : M datetime :=
  fun w => Ok (wall_clock (ticks w)) (World (heap w) (S (ticks w)) (entropy w)).

(** [RSA.generate(bits)] *)
Definition rsa_generate (bits : Z) : M RsaKey :=
  fun w =>
    let kr := RSA_generate bits (entropy w) in
    Ok (fst kr) (World (heap w) (ticks w) (snd kr)).

(** [PKCS1_v1_5.new(key).sign(h)], [h] given by its digest. *)
Definition signer_sign (key : RsaKey) (h : bytes) : M bytes :=
  fun w =>
    let sr := PKCS1_v1_5_sign key h (entropy w) in
    Ok (fst sr) (World (heap w) (ticks w) (snd sr)).

(** [s * n] *)
Definition py_str_mul (s : string) (n : Z) : M string :=
  match str_mul_error s n with
  | Some e => raise e
  | None => ret (str_mul s n)
  end.

(** *** Python lists *)

Definition list_items (l : loc) : M (list val) :=
  o <- load l ;;
  match o with
  | PyList xs => ret xs
  | _ => raise AttributeError
  end.

(** [l.append(v)] *)
Definition list_append (l : loc) (v : val) : M unit :=
  xs <- list_items l ;; store l (PyList (xs ++ [v])).

(** [l.clear()] *)
Definition list_clear (l : loc) : M unit :=
  list_items l ;; store l (PyList []).

(** [l.copy()]: a new list object with the same items. *)
Definition list_copy (l : loc) : M loc :=
  xs <- list_items l ;; alloc (PyList xs).

(** [l[i]]: a negative index counts from the end; out of range raises
    [IndexError]. *)
Definition list_getitem (l : loc) (i : Z) : M val :=
  xs <- list_items l ;;
  match py_index xs i with
  | Some v => ret v
  | None => raise IndexError
  end.
End Primitives.

(** ** class Node *)

Module Node.
Section Node.
Context `{Platform}.

Definition __init__ (name : string) : M node :=
  key <- rsa_generate 1024 ;;
  ret (MkNode name key (public_key key)).

(** Hexadecimal representation of the public key. *)
Definition identity (self : node) : string :=
  hexlify (export_key (_public_key self)).

(** The key a [PKCS1_v1_5] signer of this node signs with. *)
Definition signer (self : node) : RsaKey := _private_key self.
End Node.
End Node.

(** ** class Transaction *)

Module Transaction.
Section Transaction.
Context `{Platform}.

Definition __init__ (sender receiver : node) (value : Z) : M transaction :=
  now <- datetime_now ;;
  ret (MkTransaction sender receiver value now).

Definition to_dict (self : transaction) : pydict :=
  [ ("sender"%string, PyStr (Node.identity (sender self)));
    ("receiver"%string, PyStr (Node.identity (receiver self)));
    ("value"%string, PyInt (value self));
    ("time"%string, PyDatetime (timestamp self)) ].

(** The bytes that are hashed and signed:
    [str(self.to_dict()).encode('utf-8')]. *)
Definition canonical_form (self : transaction) : bytes :=
  encode_utf8 (str_dict (to_dict self)).

Definition sign (self : transaction) : M string :=
  let signer := Node.signer (sender self) in
  let h := SHA256.digest (canonical_form self) in
  sig <- signer_sign signer h ;;
  ret (hexlify sig).
End Transaction.
End Transaction.

(** ** class Transactions *)

Module Transactions.
Section Transactions.
Context `{Platform}.

Definition attrs (self : loc) : M (loc * Z) :=
  o <- load self ;;
  match o with
  | TransactionsObj lst count => ret (lst, count)
  | _ => raise AttributeError
  end.

Definition get_lst (self : loc) : M loc := a <- attrs self ;; ret (fst a).
Definition get_count (self : loc) : M Z := a <- attrs self ;; ret (snd a).
Definition set_lst (self : loc) (lst : loc) : M unit :=
  a <- attrs self ;; store self (TransactionsObj lst (snd a)).
Definition set_count (self : loc) (count : Z) : M unit :=
  a <- attrs self ;; store self (TransactionsObj (fst a) count).

Definition __init__ : M loc :=
  lst <- alloc (PyList []) ;;
  alloc (TransactionsObj lst 0).

(** Create a new transaction and add it to the queue. *)
Definition transfer (self : loc) (sender receiver : node) (value : Z) : M unit :=
  t <- Transaction.__init__ sender receiver value ;;
  lst <- get_lst self ;;
  list_append lst (VTransaction t) ;;
  c <- get_count self ;;
  set_count self (c + 1).

Definition clear (self : loc) : M unit :=
  lst <- get_lst self ;;
  list_clear lst ;;
  set_count self 0.

Definition __copy__ (self : loc) : M loc :=
  new_transactions <- __init__ ;;
  lst <- get_lst self ;;
  lst' <- list_copy lst ;;
  set_lst new_transactions lst' ;;
  c <- get_count self ;;
  set_count new_transactions c ;;
  ret new_transactions.
End Transactions.
End Transactions.

(** ** class Block *)

Module Block.
Section Block.
Context `{Platform}.

Definition get_verified_transactions (self : loc) : M loc :=
  o <- load self ;;
  match o with BlockObj vt _ _ _ _ => ret vt | _ => raise AttributeError end.
Definition get_previous_hash (self : loc) : M string :=
  o <- load self ;;
  match o with BlockObj _ ph _ _ _ => ret ph | _ => raise AttributeError end.
Definition get_difficulty (self : loc) : M Z :=
  o <- load self ;;
  match o with BlockObj _ _ d _ _ => ret d | _ => raise AttributeError end.
Definition get_transaction_hash (self : loc) : M string :=
  o <- load self ;;
  match o with BlockObj _ _ _ th _ => ret th | _ => raise AttributeError end.
Definition get_nonce (self : loc) : M (option Z) :=
  o <- load self ;;
  match o with BlockObj _ _ _ _ n => ret n | _ => raise AttributeError end.
Definition set_transaction_hash (self : loc) (th : string) : M unit :=
  o <- load self ;;
  match o with
  | BlockObj vt ph d _ n => store self (BlockObj vt ph d th n)
  | _ => raise AttributeError
  end.
Definition set_nonce (self : loc) (n : option Z) : M unit :=
  o <- load self ;;
  match o with
  | BlockObj vt ph d th _ => store self (BlockObj vt ph d th n)
  | _ => raise AttributeError
  end.

(** The loop of [compute_transaction_hash] over the items of the list,
    [str_rep] being the string built so far. *)
Fixpoint sign_each (items : list val) (str_rep : string) : M string :=
  match items with
  | [] => ret str_rep
  | VTransaction t :: rest =>
      sign <- Transaction.sign t ;;
      sign_each rest (str_rep +:+ sign)
  | VRef _ :: _ => raise AttributeError
  end.

(** Compute the hash of all transactions. *)
Definition compute_transaction_hash (self : loc) : M string :=
  vt <- get_verified_transactions self ;;
  lst <- Transactions.get_lst vt ;;
  items <- list_items lst ;;
  str_rep <- sign_each items "" ;;
  ret (sha256 str_rep).

(** The new object carries the copy of the pool, the previous hash and
    the difficulty from its allocation on; [transaction_hash] and [nonce]
    are assigned next, in the order of the source, and are not read
    before. *)
Definition __init__ (verified_transactions : loc) (previous_hash : string)
    (difficulty : Z) : M loc :=
  vt <- Transactions.__copy__ verified_transactions ;;
  self <- alloc (BlockObj vt previous_hash difficulty "" None) ;;
  th <- compute_transaction_hash self ;;
  set_transaction_hash self th ;;
  set_nonce self None ;;
  ret self.

Definition py_nonce (n : option Z) : pyval :=
  match n with Some k => PyInt k | None => PyNone end.

(** Dictionary representation of the block header. *)
Definition header_to_dict (self : loc) : M pydict :=
  ph <- get_previous_hash self ;;
  d <- get_difficulty self ;;
  th <- get_transaction_hash self ;;
  n <- get_nonce self ;;
  ret [ ("previous_hash"%string, PyStr ph);
        ("difficulty"%string, PyInt d);
        ("transaction_hash"%string, PyStr th);
        ("nonce"%string, py_nonce n) ].

(** Check if the hash of the block suits the difficulty. *)
Definition validate_difficulty (self : loc) (data : string) : M (string * bool) :=
  let digest := sha256 data in
  d <- get_difficulty self ;;
  zeros <- py_str_mul "0" d ;;
  if endswith digest zeros then ret (digest, true)
  else ret (digest, false).

(** [self.nonce += 1] *)
Definition incr_nonce (self : loc) : M unit :=
  n <- get_nonce self ;;
  match n with
  | Some k => set_nonce self (Some (k + 1))
  | None => raise TypeError
  end.

(** The [while not success] loop; [fuel] bounds its iterations. *)
Fixpoint mine_loop (fuel : nat) (self : loc) (r : string * bool) : M string :=
  if snd r then ret (fst r)
  else match fuel with
       | O => out_of_fuel
       | S fuel' =>
           incr_nonce self ;;
           h <- header_to_dict self ;;
           r' <- validate_difficulty self (str_dict h) ;;
           mine_loop fuel' self r'
       end.

(** Proof of work: find a suitable nonce and return the block hash. *)
Definition mine (fuel : nat) (self : loc) : M string :=
  set_nonce self (Some 0) ;;
  h <- header_to_dict self ;;
  r <- validate_difficulty self (str_dict h) ;;
  mine_loop fuel self r.
End Block.
End Block.

(** ** class Blockchain *)

Module Blockchain.
Section Blockchain.
Context `{Platform}.

Definition attrs (self : loc) : M (loc * Z * string) :=
  o <- load self ;;
  match o with
  | BlockchainObj lst count last_hash => ret (lst, count, last_hash)
  | _ => raise AttributeError
  end.

Definition get_lst (self : loc) : M loc := a <- attrs self ;; ret (fst (fst a)).
Definition get_count (self : loc) : M Z := a <- attrs self ;; ret (snd (fst a)).
Definition get_last_hash (self : loc) : M string := a <- attrs self ;; ret (snd a).
Definition set_count (self : loc) (count : Z) : M unit :=
  a <- attrs self ;; store self (BlockchainObj (fst (fst a)) count (snd a)).
Definition set_last_hash (self : loc) (last_hash : string) : M unit :=
  a <- attrs self ;;
  store self (BlockchainObj (fst (fst a)) (snd (fst a)) last_hash).

Definition __init__ : M loc :=
  lst <- alloc (PyList []) ;;
  alloc (BlockchainObj lst 0 "").

(** Create a new block and add it to the blockchain. *)
Definition create_block (self : loc) (verified_transactions : loc)
    (difficulty : Z) : M unit :=
  last_hash <- get_last_hash self ;;
  b <- Block.__init__ verified_transactions last_hash difficulty ;;
  lst <- get_lst self ;;
  list_append lst (VRef b) ;;
  c <- get_count self ;;
  set_count self (c + 1).

(** Mine the last block and update the last block hash. *)
Definition mine_last_block (fuel : nat) (self : loc) : M unit :=
  lst <- get_lst self ;;
  c <- get_count self ;;
  v <- list_getitem lst (c - 1) ;;
  match v with
  | VRef b =>
      digest <- Block.mine fuel b ;;
      set_last_hash self digest
  | VTransaction _ => raise AttributeError
  end.
End Blockchain.
End Blockchain.

(** ** A miniature platform, to run the model on concrete inputs *)

Module Toy.
Record key := Key { modulus : Z; public_exponent : Z; private_exponent : Z }.

Definition next_seed (r : Z) : Z := (r * 1103515245 + 12345) mod 2147483648.

Definition generate (bits : Z) (r : Z) : key * Z :=
  (match r mod 3 with
   | 0 => Key 3233 17 2753
   | 1 => Key 3127 3 2011
   | _ => Key 2773 17 157
   end, next_seed r).

Definition public (k : key) : key := Key (modulus k) (public_exponent k) 0.

Definition export (k : key) : bytes :=
  encode_utf8 ("RSA " +:+ str_int (modulus k) +:+ " " +:+ str_int (public_exponent k)).

Fixpoint modpow (b : Z) (e : positive) (n : Z) : Z :=
  match e with
  | xH => b mod n
  | xO e' => let h := modpow b e' n in (h * h) mod n
  | xI e' => let h := modpow b e' n in (h * h * b) mod n
  end.

Definition os2ip (b : bytes) : Z :=
  fold_left (fun acc x => acc * 256 + byte_to_Z x) b 0.

(** Textbook RSA on the digest reduced modulo the modulus; the random
    source is advanced and otherwise unused. *)
Definition sign (k : key) (h : bytes) (r : Z) : bytes * Z :=
  let s :=
    match private_exponent k with
    | Zpos d => modpow (os2ip h mod modulus k) d (modulus k)
    | _ => 0
    end in
  ([byte_of_Z (s / 256); byte_of_Z s], next_seed r).

Definition clock (k : nat) : datetime :=
  Datetime 2024 1 2 3 4 (Z.of_nat k mod 60) 0.
End Toy.

#[local] Instance toy_platform : Platform :=
  {| RsaKey := Toy.key;
     Entropy := Z;
     RSA_generate := Toy.generate;
     public_key := Toy.public;
     export_key := Toy.export;
     PKCS1_v1_5_sign := Toy.sign;
     wall_clock := Toy.clock;
     str_capacity := 1000000 |}.

(** ** Character classes, used to state results *)

(** The lower-case hexadecimal digits. *)
Definition is_hexdigit (c : ascii) : Prop :=
  (48 <= ord c <= 57) \/ (97 <= ord c <= 102).

(** The characters of a rendered integer: the minus sign and the decimal
    digits. *)
Definition is_intchar (c : ascii) : Prop := ord c = 45 \/ 48 <= ord c <= 57.

Fixpoint all_chars (P : ascii -> Prop) (s : string) : Prop :=
  match s with
  | EmptyString => True
  | String c s' => P c /\ all_chars P s'
  end.

(** ** Pure readings of the code, used to state results *)

(** The dictionary [header_to_dict] returns for a block with these
    attributes. *)
Definition header (ph : string) (d : Z) (th : string) (n : option Z) : pydict :=
  [ ("previous_hash"%string, PyStr ph);
    ("difficulty"%string, PyInt d);
    ("transaction_hash"%string, PyStr th);
    ("nonce"%string, Block.py_nonce n) ].

(** The digest of the header at nonce [n]. *)
Definition proof_hash (ph : string) (d : Z) (th : string) (n : Z) : string :=
  sha256 (str_dict (header ph d th (Some n))).

(** The difficulty predicate at nonce [n]. *)
Definition suits (ph : string) (d : Z) (th : string) (n : Z) : bool :=
  endswith (proof_hash ph d th n) (str_mul "0" d).

(** The interpreter can build ["0" * d], the suffix [validate_difficulty]
    looks for. *)
Definition zeros_fit `{Platform} (d : Z) : Prop := str_mul_error "0" d = None.

(** The decimal rendering of [z] has at most 640 digits.  The interpreter
    may limit the digits of an integer it converts to a string, to 640 or
    more: within this bound [str(z)], and so the rendering of a header
    that holds [z], is not refused under any setting. *)
Definition str_int_allowed (z : Z) : Prop := Z.abs z < 10 ^ 640.

(** The nonce the loop of [mine] stops at when it starts from [n] and may
    increment [fuel] times. *)
Fixpoint search (ph : string) (d : Z) (th : string) (fuel : nat) (n : Z) : option Z :=
  if suits ph d th n then Some n
  else match fuel with
       | O => None
       | S fuel' => search ph d th fuel' (n + 1)
       end.

(** ** Shapes in the heap *)

(** [p] is a [Transactions] instance whose list holds [items] and whose
    counter is [count]. *)
Definition is_pool `{Platform} (w : world) (p : loc) (items : list val)
    (count : Z) : Prop :=
  exists l, heap w !! p = Some (TransactionsObj l count)
            /\ heap w !! l = Some (PyList items).

(** The invariant of a pool: the counter is the length of the list. *)
Definition pool_inv `{Platform} (w : world) (p : loc) : Prop :=
  exists items, is_pool w p items (Z.of_nat (length items)).

(** ** Signatures *)

(** What [sign()] returns for [t] when the random source is in state [r],
    and the state it leaves. *)
Definition signature `{Platform} (t : transaction) (r : Entropy) : string :=
  hexlify (fst (PKCS1_v1_5_sign (Node.signer (sender t))
                  (SHA256.digest (Transaction.canonical_form t)) r)).

Definition after_sign `{Platform} (t : transaction) (r : Entropy) : Entropy :=
  snd (PKCS1_v1_5_sign (Node.signer (sender t))
         (SHA256.digest (Transaction.canonical_form t)) r).

(** The signatures successive [sign()] calls return, in order. *)
Fixpoint signatures `{Platform} (ts : list transaction) (r : Entropy) : list string :=
  match ts with
  | [] => []
  | t :: ts' => signature t r :: signatures ts' (after_sign t r)
  end.

Fixpoint after_signs `{Platform} (ts : list transaction) (r : Entropy) : Entropy :=
  match ts with
  | [] => r
  | t :: ts' => after_signs ts' (after_sign t r)
  end.

(** Concatenation of a list of strings. *)
Definition concat_str (l : list string) : string := fold_right String.append "" l.

(** ** The caller protocol of the chain *)

(** The block [mine_last_block] mines: the item of the chain's list at
    index [count - 1]. *)
Definition last_block `{Platform} (w : world) (bc : loc) : option loc :=
match heap w !! bc with
| Some (BlockchainObj lb cnt _) =>
    match heap w !! lb with
    | Some (PyList items) =>
        match py_index items (cnt - 1) with
        | Some (VRef b) => Some b
        | _ => None
        end
    | _ => None
    end
| _ => None
end.

(** The worlds the caller reaches with one chain [bc] and the pools
    [pools], and the proof hashes the minings have returned so far, the
    oldest first.  The chain is created in a world where the pools that
    exist hold transactions; pools are created, filled and cleared at will;
    every [create_block] is followed by [mine_last_block], and [digest] is
    what [mine] returns there for the block just appended. *)
Inductive protocol `{Platform} (bc : loc) : gset loc -> world -> list string -> Prop :=
| protocol_fresh (pools : gset loc) (w0 w : world) :
    (forall p, p ∈ pools -> exists ts c, is_pool w0 p (map VTransaction ts) c) ->
    Blockchain.__init__ w0 = Ok bc w ->
    protocol bc pools w []
| protocol_new_pool (pools : gset loc) (w w' : world) (hs : list string) (p : loc) :
    protocol bc pools w hs ->
    Transactions.__init__ w = Ok p w' ->
    protocol bc ({[p]} ∪ pools) w' hs
| protocol_transfer (pools : gset loc) (w w' : world) (hs : list string)
    (p : loc) (s r : node) (v : Z) :
    protocol bc pools w hs ->
    p ∈ pools ->
    Transactions.transfer p s r v w = Ok tt w' ->
    protocol bc pools w' hs
| protocol_clear (pools : gset loc) (w w' : world) (hs : list string) (p : loc) :
    protocol bc pools w hs ->
    p ∈ pools ->
    Transactions.clear p w = Ok tt w' ->
    protocol bc pools w' hs
| protocol_round (pools : gset loc) (w w1 wm w2 : world) (hs : list string)
    (p b : loc) (d : Z) (fuel : nat) (digest : string) :
    protocol bc pools w hs ->
    p ∈ pools ->
    Blockchain.create_block bc p d w = Ok tt w1 ->
    last_block w1 bc = Some b ->
    Block.mine fuel b w1 = Ok digest wm ->
    Blockchain.mine_last_block fuel bc w1 = Ok tt w2 ->
    protocol bc pools w2 (hs ++ [digest]).

(** The hash block [i] must carry as [previous_hash] when the minings have
    returned [hs]: empty for block 0, the hash of block [i - 1] after. *)
Definition link (hs : list string) (i : nat) : string :=
match i with
| O => ""
| S j => default "" (hs !! j)
end.

(** The chain [bc] holds the blocks [blocs], in this order, each linked to
    the proof hash of the one before, and its last hash is the latest
    proof hash. *)
Definition linked `{Platform} (w : world) (bc : loc) (blocs : list loc)
    (hs : list string) : Prop :=
length blocs = length hs /\
(exists lb,
   heap w !! bc
   = Some (BlockchainObj lb (Z.of_nat (length blocs)) (link hs (length hs))) /\
   heap w !! lb = Some (PyList (map VRef blocs))) /\
(forall i b, blocs !! i = Some b ->
   exists vt d th n, heap w !! b = Some (BlockObj vt (link hs i) d th n)).

(** What the protocol maintains: the chain is linked, and every pool of
    the caller holds transactions in a list of its own, which is not the
    list of the chain. *)
Definition chain_inv `{Platform} (w : world) (bc : loc) (pools : gset loc)
    (hs : list string) : Prop :=
exists lb blocs,
  length blocs = length hs /\
  heap w !! bc
  = Some (BlockchainObj lb (Z.of_nat (length blocs)) (link hs (length hs))) /\
  heap w !! lb = Some (PyList (map VRef blocs)) /\
  (forall i b, blocs !! i = Some b ->
     exists vt d th n, heap w !! b = Some (BlockObj vt (link hs i) d th n)) /\
  (forall p, p ∈ pools ->
     exists l c ts,
       heap w !! p = Some (TransactionsObj l c) /\
       heap w !! l = Some (PyList (map VTransaction ts)) /\
       l <> lb).

(** ** A chain that can be checked *)

(** The chain [bc] holds the blocks [blocs], all different objects and all
    mined: block [i] is linked to the hash before it, holds a nonce, and
    the hash recorded for it is the digest of its header at that nonce,
    which suits its difficulty. *)
Definition chain_valid `{Platform} (w : world) (bc : loc) (blocs : list loc)
    (hs : list string) : Prop :=
  NoDup blocs /\ length blocs = length hs /\
  (exists lb,
     heap w !! bc
     = Some (BlockchainObj lb (Z.of_nat (length blocs)) (link hs (length hs))) /\
     heap w !! lb = Some (PyList (map VRef blocs))) /\
  (forall i b, blocs !! i = Some b ->
     exists vt d th n,
       heap w !! b = Some (BlockObj vt (link hs i) d th (Some n)) /\
       0 <= n /\ suits (link hs i) d th n = true /\
       hs !! i = Some (proof_hash (link hs i) d th n)).


(** ** Blocks whose transaction hash can be checked *)

(** The block [b] stores the hash of the signatures of the transactions
    its snapshot holds, and the snapshot is out of reach of the pools: it
    is none of them and shares its list with none of them. *)
Definition block_checkable `{Platform} (w : world) (pools : gset loc)
    (b : loc) : Prop :=
  exists vt l c ts ph d n r0,
    heap w !! b
    = Some (BlockObj vt ph d (sha256 (concat_str (signatures ts r0))) n) /\
    heap w !! vt = Some (TransactionsObj l c) /\
    heap w !! l = Some (PyList (map VTransaction ts)) /\
    (vt ∉ pools) /\
    (forall p lp cp, p ∈ pools ->
       heap w !! p = Some (TransactionsObj lp cp) -> lp <> l).

(** Every block in the list of the chain [bc] is checkable. *)
Definition chain_checkable `{Platform} (w : world) (bc : loc)
    (pools : gset loc) : Prop :=
  forall lb cnt last items b,
    heap w !! bc = Some (BlockchainObj lb cnt last) ->
    heap w !! lb = Some (PyList items) ->
    VRef b ∈ items ->
    block_checkable w pools b.


(** ** Concrete worlds, on the miniature platform *)

(** The world a computation leaves behind. *)
Definition run_world `{Platform} {A} (m : M A) (w : world) : world :=
  match m w with
  | Ok _ w' => w'
  | Raise _ w' => w'
  | OutOfFuel => w
  end.

Definition empty_world : world := World ∅ 0 42.

(** A fresh chain, an empty pool, and one block created at difficulty [d]
    and not mined yet. *)
Definition setup_block (d : Z) : M unit :=
  bc <- Blockchain.__init__ ;;
  txs <- Transactions.__init__ ;;
  Blockchain.create_block bc txs d.

Definition one_block_world (d : Z) : world := run_world (setup_block d) empty_world.

(** Where the objects of the worlds below are: the chain and its list are
    allocated first, the pool and its list next. *)
Definition chain_list : loc := 1.
Definition chain : loc := 2.
Definition pool_list : loc := 3.
Definition pool : loc := 4.

(** In [one_block_world] the copy of the pool takes three locations and the
    block the next. *)
Definition snapshot : loc := 6.
Definition first_block : loc := 8.

(** A fresh chain and nothing else. *)
Definition fresh_chain_world : world := run_world Blockchain.__init__ empty_world.

Definition alice : node := MkNode "alice" (Toy.Key 3233 17 2753) (Toy.Key 3233 17 0).
Definition bob : node := MkNode "bob" (Toy.Key 3127 3 2011) (Toy.Key 3127 3 0).

Definition t_alice_bob : transaction := MkTransaction alice bob 10 (Toy.clock 0).
Definition t_bob_alice : transaction := MkTransaction bob alice 7 (Toy.clock 1).

(** A fresh chain and a pool with two pending transfers. *)
Definition setup_pool : M unit :=
  bc <- Blockchain.__init__ ;;
  txs <- Transactions.__init__ ;;
  Transactions.transfer txs alice bob 10 ;;
  Transactions.transfer txs bob alice 7.

Definition pool_world : world := run_world setup_pool empty_world.

(** The digest of the empty string, which is the transaction hash of a
    block over an empty pool. *)
Definition empty_hash : string :=
"e3b0c44298fc1c149afbf4c8996fb92427ae41e4649b934ca495991b7852b855".

(** [one_block_world 2] after its block has been mined: the search stops
    at nonce 5. *)
Definition mined_world : world :=
with_heap
  (<[first_block := BlockObj snapshot "" 2 empty_hash (Some 5)]>
     (heap (one_block_world 2)))
  (one_block_world 2).

(** *** Two rounds of the protocol *)

(** A fresh chain, a pool, a first block over the empty pool at difficulty
    2, mined at nonce 5; then one transfer and a second block at difficulty
    1, mined at nonce 1. *)
Definition second_snapshot : loc := 10.
Definition second_block : loc := 12.

Definition round1_pool : world := run_world Transactions.__init__ fresh_chain_world.

Definition round1_created : world :=
run_world (Blockchain.create_block chain pool 2) round1_pool.

Definition hash1 : string := proof_hash "" 2 empty_hash 5.

Definition round1_mined : world :=
with_heap
  (<[chain := BlockchainObj chain_list 1 hash1]>
     (<[first_block := BlockObj snapshot "" 2 empty_hash (Some 5)]>
        (heap round1_created)))
  round1_created.

Definition round2_pool : world :=
run_world (Transactions.transfer pool alice bob 10) round1_mined.

Definition round2_created : world :=
run_world (Blockchain.create_block chain pool 1) round2_pool.

Definition transaction_hash2 : string :=
sha256 (concat_str (signatures [t_alice_bob] (entropy round2_pool))).

Definition hash2 : string := proof_hash hash1 1 transaction_hash2 1.

Definition round2_mined : world :=
with_heap
  (<[chain := BlockchainObj chain_list 2 hash2]>
     (<[second_block :=
          BlockObj second_snapshot hash1 1 transaction_hash2 (Some 1)]>
        (heap round2_created)))
  round2_created.

(** In [round2_created] the list of the second snapshot follows it. *)
Definition second_snapshot_list : loc := 11.

(** * Properties *)

(** ** Strings *)

#[local] Arguments String.append !_ _ : simpl nomatch.

Lemma str_app_nil_r (s : string) : s +:+ "" = s.
Proof. induction s as [|c s IH]; simpl; [done | by rewrite IH]. Qed.

Lemma str_app_assoc (a b c : string) : (a +:+ b) +:+ c = a +:+ (b +:+ c).
Proof. induction a as [|x a IH]; simpl; [done | by rewrite IH]. Qed.

Lemma str_length_app (a b : string) :
  String.length (a +:+ b) = (String.length a + String.length b)%nat.
Proof. induction a as [|x a IH]; simpl; [done | by rewrite IH]. Qed.

Lemma str_app_inv_head (a b c : string) : a +:+ b = a +:+ c -> b = c.
Proof. apply String.app_inj. Qed.

Lemma substring_all (s : string) : substring 0 (String.length s) s = s.
Proof. induction s as [|c s IH]; simpl; [done | by rewrite IH]. Qed.

Lemma substring_skip (p t : string) :
  substring (String.length p) (String.length t) (p +:+ t) = t.
Proof. induction p as [|c p IH]; simpl; [apply substring_all | done]. Qed.

Lemma substring_split (s : string) (k : nat) :
  (k <= String.length s)%nat ->
  s = substring 0 k s +:+ substring k (String.length s - k) s.
Proof.
  revert k. induction s as [|c s IH]; intros [|k] Hk; simpl in *; try lia.
  - done.
  - by rewrite substring_all.
  - rewrite <- IH by lia. done.
Qed.

(** [endswith] decides "is a suffix of". *)
Lemma endswith_spec (s t : string) :
  endswith s t = true <-> exists p, s = p +:+ t.
Proof.
  unfold endswith. rewrite andb_true_iff, Nat.leb_le, String.eqb_eq. split.
  - intros [Hle Hsub].
    exists (substring 0 (String.length s - String.length t) s).
    assert (Hk : (String.length s - String.length t <= String.length s)%nat) by lia.
    pose proof (substring_split s _ Hk) as Hs.
    replace (String.length s - (String.length s - String.length t))%nat
      with (String.length t) in Hs by lia.
    by rewrite Hsub in Hs.
  - intros [p ->]. rewrite str_length_app. split; [lia|].
    replace (String.length p + String.length t - String.length t)%nat
      with (String.length p) by lia.
    apply substring_skip.
Qed.

Lemma endswith_too_long (s t : string) :
  (String.length s < String.length t)%nat -> endswith s t = false.
Proof.
  intros Hlt. unfold endswith.
  destruct (Nat.leb_spec (String.length t) (String.length s)); [lia | done].
Qed.

Lemma endswith_empty (s : string) : endswith s "" = true.
Proof. apply endswith_spec. exists s. by rewrite str_app_nil_r. Qed.

Lemma length_str_repeat_char (c : ascii) (n : nat) :
  String.length (str_repeat (String c "") n) = n.
Proof. induction n as [|n IH]; simpl; [done | by rewrite IH]. Qed.

Lemma length_str_mul_char (c : ascii) (d : Z) :
  String.length (str_mul (String c "") d) = Z.to_nat d.
Proof. apply length_str_repeat_char. Qed.

Lemma str_mul_nonpos (s : string) (d : Z) : d <= 0 -> str_mul s d = "".
Proof. intros Hd. unfold str_mul. by replace (Z.to_nat d) with 0%nat by lia. Qed.

(** ** Hexadecimal digests *)

Lemma ord_chr (z : Z) : 0 <= z < 256 -> ord (chr z) = z.
Proof.
  intros Hz. unfold ord, chr. rewrite N_ascii_embedding by lia. lia.
Qed.

Lemma ord_bounded (c : ascii) : 0 <= ord c < 256.
Proof. unfold ord. pose proof (N_ascii_bounded c). lia. Qed.

Lemma ord_inj (a b : ascii) : ord a = ord b -> a = b.
Proof.
  unfold ord. intros Heq.
  rewrite <- (ascii_N_embedding a), <- (ascii_N_embedding b).
  f_equal. lia.
Qed.

Lemma hexdigit_is_hex (n : Z) : 0 <= n < 16 -> is_hexdigit (hexdigit n).
Proof.
  intros Hn. unfold is_hexdigit, hexdigit.
  destruct (Z.ltb_spec n 10); rewrite ord_chr by lia; lia.
Qed.

Lemma byte_to_Z_bounded (b : byte) : 0 <= byte_to_Z b < 256.
Proof. unfold byte_to_Z. pose proof (Byte.to_N_bounded b). lia. Qed.

Lemma hexlify_is_hex (b : bytes) : all_chars is_hexdigit (hexlify b).
Proof.
  induction b as [|x b IH]; simpl; [done|].
  pose proof (byte_to_Z_bounded x).
  repeat split; [| |done]; apply hexdigit_is_hex.
  - split; [apply Z.div_pos; lia | apply Z.div_lt_upper_bound; lia].
  - apply Z.mod_pos_bound. lia.
Qed.

Lemma length_hexlify (b : bytes) :
  String.length (hexlify b) = (2 * length b)%nat.
Proof. induction b as [|x b IH]; simpl; [done | rewrite IH; lia]. Qed.

Lemma length_digest (msg : bytes) : length (SHA256.digest msg) = 32%nat.
Proof. reflexivity. Qed.

(** A digest is sixty-four hexadecimal digits. *)
Lemma length_sha256 (message : string) : String.length (sha256 message) = 64%nat.
Proof.
  unfold sha256, SHA256.hexdigest. by rewrite length_hexlify, length_digest.
Qed.

Lemma sha256_is_hex (message : string) : all_chars is_hexdigit (sha256 message).
Proof. apply hexlify_is_hex. Qed.

(** ** The monad and the heap primitives *)

Create HintDb heap.

Section MonadFacts.
Context `{Platform}.

Lemma bind_Ok {A B} (m : M A) (f : A -> M B) w a w1 :
  m w = Ok a w1 -> bind m f w = f a w1.
Proof. intros Hm. unfold bind. by rewrite Hm. Qed.

Lemma bind_Raise {A B} (m : M A) (f : A -> M B) w e w1 :
  m w = Raise e w1 -> bind m f w = Raise e w1.
Proof. intros Hm. unfold bind. by rewrite Hm. Qed.

Lemma load_Some l o w : heap w !! l = Some o -> load l w = Ok o w.
Proof. intros Hl. unfold load. by rewrite Hl. Qed.

Lemma alloc_fresh (o : obj) w : heap w !! fresh (dom (heap w)) = None.
Proof. apply not_elem_of_dom, is_fresh. Qed.

Lemma list_items_PyList l xs w :
  heap w !! l = Some (PyList xs) -> list_items l w = Ok xs w.
Proof. intros Hl. unfold list_items. by rewrite (bind_Ok _ _ _ _ _ (load_Some _ _ _ Hl)). Qed.
End MonadFacts.

#[export] Hint Resolve load_Some list_items_PyList : heap.

Ltac mstep := erewrite bind_Ok by eauto with heap.

(** ** Reading and writing a block *)

Section BlockFacts.
Context `{Platform}.
Variables (self vt : loc) (ph : string) (d : Z) (th : string).

Lemma get_previous_hash_Block n w :
  heap w !! self = Some (BlockObj vt ph d th n) ->
  Block.get_previous_hash self w = Ok ph w.
Proof. intros Hs. unfold Block.get_previous_hash. by mstep. Qed.

Lemma get_difficulty_Block n w :
  heap w !! self = Some (BlockObj vt ph d th n) ->
  Block.get_difficulty self w = Ok d w.
Proof. intros Hs. unfold Block.get_difficulty. by mstep. Qed.

Lemma get_transaction_hash_Block n w :
  heap w !! self = Some (BlockObj vt ph d th n) ->
  Block.get_transaction_hash self w = Ok th w.
Proof. intros Hs. unfold Block.get_transaction_hash. by mstep. Qed.

Lemma get_nonce_Block n w :
  heap w !! self = Some (BlockObj vt ph d th n) ->
  Block.get_nonce self w = Ok n w.
Proof. intros Hs. unfold Block.get_nonce. by mstep. Qed.

Lemma get_verified_transactions_Block n w :
  heap w !! self = Some (BlockObj vt ph d th n) ->
  Block.get_verified_transactions self w = Ok vt w.
Proof. intros Hs. unfold Block.get_verified_transactions. by mstep. Qed.

Lemma set_nonce_Block n n' w :
  heap w !! self = Some (BlockObj vt ph d th n) ->
  Block.set_nonce self n' w
  = Ok tt (with_heap (<[self := BlockObj vt ph d th n']> (heap w)) w).
Proof. intros Hs. unfold Block.set_nonce. by mstep. Qed.

Lemma header_to_dict_Block n w :
  heap w !! self = Some (BlockObj vt ph d th n) ->
  Block.header_to_dict self w = Ok (header ph d th n) w.
Proof.
  intros Hs. unfold Block.header_to_dict.
  erewrite bind_Ok by (eapply get_previous_hash_Block; eassumption).
  erewrite bind_Ok by (eapply get_difficulty_Block; eassumption).
  erewrite bind_Ok by (eapply get_transaction_hash_Block; eassumption).
  erewrite bind_Ok by (eapply get_nonce_Block; eassumption).
  done.
Qed.

Lemma validate_difficulty_Block n data w :
  heap w !! self = Some (BlockObj vt ph d th n) ->
  zeros_fit d ->
  Block.validate_difficulty self data w
  = Ok (sha256 data, endswith (sha256 data) (str_mul "0" d)) w.
Proof.
  intros Hs Hfit. unfold Block.validate_difficulty.
  erewrite bind_Ok by (eapply get_difficulty_Block; eassumption).
  unfold py_str_mul. rewrite Hfit. unfold bind, ret.
  by destruct (endswith _ _).
Qed.

(** When ["0" * self.difficulty] cannot be built, the call ends with the
    error of the multiplication and writes nothing. *)
Lemma validate_difficulty_raises n data e w :
  heap w !! self = Some (BlockObj vt ph d th n) ->
  str_mul_error "0" d = Some e ->
  Block.validate_difficulty self data w = Raise e w.
Proof.
  intros Hs He. unfold Block.validate_difficulty.
  erewrite bind_Ok by (eapply get_difficulty_Block; eassumption).
  unfold py_str_mul. by rewrite He.
Qed.

(** One candidate: the header is rendered and hashed at the stored nonce. *)
Lemma candidate_Block n w :
  heap w !! self = Some (BlockObj vt ph d th (Some n)) ->
  zeros_fit d ->
  (h <- Block.header_to_dict self ;;
   Block.validate_difficulty self (str_dict h)) w
  = Ok (proof_hash ph d th n, suits ph d th n) w.
Proof.
  intros Hs Hfit.
  erewrite bind_Ok by (eapply header_to_dict_Block; eassumption).
  by erewrite validate_difficulty_Block by eassumption.
Qed.

Lemma candidate_raises n e w :
  heap w !! self = Some (BlockObj vt ph d th (Some n)) ->
  str_mul_error "0" d = Some e ->
  (h <- Block.header_to_dict self ;;
   Block.validate_difficulty self (str_dict h)) w
  = Raise e w.
Proof.
  intros Hs He.
  erewrite bind_Ok by (eapply header_to_dict_Block; eassumption).
  by erewrite validate_difficulty_raises by eassumption.
Qed.

(** The world [w] over the heap [h] in which the block holds nonce [n]. *)
Local Abbreviation mined h w n :=
  (with_heap (<[self := BlockObj vt ph d th (Some n)]> h) w).

(** The loop of [mine] is [search], started at the stored nonce. *)
Lemma mine_loop_search fuel : zeros_fit d -> forall h w n,
  Block.mine_loop fuel self (proof_hash ph d th n, suits ph d th n) (mined h w n)
  = match search ph d th fuel n with
    | Some m => Ok (proof_hash ph d th m) (mined h w m)
    | None => OutOfFuel
    end.
Proof.
  intros Hfit. induction fuel as [|fuel IH]; intros h w n; simpl;
    destruct (suits ph d th n) eqn:Hn; try done.
  assert (Hs : heap (mined h w n) !! self = Some (BlockObj vt ph d th (Some n)))
    by apply lookup_insert_eq.
  assert (Hincr : Block.incr_nonce self (mined h w n) = Ok tt (mined h w (n + 1))).
  { unfold Block.incr_nonce.
    erewrite bind_Ok by (eapply get_nonce_Block; eassumption).
    cbv beta match.
    erewrite set_nonce_Block by eassumption.
    simpl. by rewrite insert_insert_eq. }
  rewrite (bind_Ok _ _ _ _ _ Hincr).
  assert (Hs' : heap (mined h w (n + 1)) !! self
                = Some (BlockObj vt ph d th (Some (n + 1))))
    by apply lookup_insert_eq.
  pose proof (candidate_Block _ _ Hs' Hfit) as Hc. unfold bind in Hc |- *.
  destruct (Block.header_to_dict self (mined h w (n + 1))) as [hd w1| |];
    try done.
  rewrite Hc. apply IH.
Qed.

(** [mine] resets the nonce to 0 and runs [search] from there; on success
    only the nonce of the block has changed. *)
Lemma mine_search fuel n0 w :
  heap w !! self = Some (BlockObj vt ph d th n0) ->
  zeros_fit d ->
  Block.mine fuel self w
  = match search ph d th fuel 0 with
    | Some m => Ok (proof_hash ph d th m) (mined (heap w) w m)
    | None => OutOfFuel
    end.
Proof.
  intros Hs Hfit. unfold Block.mine.
  erewrite bind_Ok by (eapply set_nonce_Block; eassumption).
  assert (Hs0 : heap (mined (heap w) w 0) !! self
                = Some (BlockObj vt ph d th (Some 0)))
    by apply lookup_insert_eq.
  pose proof (candidate_Block _ _ Hs0 Hfit) as Hc. unfold bind in Hc |- *.
  destruct (Block.header_to_dict self (mined (heap w) w 0)) as [hd w1| |];
    try done.
  rewrite Hc. by apply mine_loop_search.
Qed.

(** When ["0" * self.difficulty] cannot be built, [mine] ends with the
    error of the multiplication at its first check: the nonce has been
    set to 0 and nothing else is written. *)
Lemma mine_raises fuel n0 e w :
  heap w !! self = Some (BlockObj vt ph d th n0) ->
  str_mul_error "0" d = Some e ->
  Block.mine fuel self w = Raise e (mined (heap w) w 0).
Proof.
  intros Hs He. unfold Block.mine.
  erewrite bind_Ok by (eapply set_nonce_Block; eassumption).
  assert (Hs0 : heap (mined (heap w) w 0) !! self
                = Some (BlockObj vt ph d th (Some 0)))
    by apply lookup_insert_eq.
  pose proof (candidate_raises _ _ _ Hs0 He) as Hc. unfold bind in Hc |- *.
  destruct (Block.header_to_dict self (mined (heap w) w 0)) as [hd w1| |];
    [by rewrite Hc | by injection Hc as -> -> | done].
Qed.

(** [mine] returns only when the suffix can be built. *)
Lemma mine_Ok_fits fuel n0 digest w w1 :
  heap w !! self = Some (BlockObj vt ph d th n0) ->
  Block.mine fuel self w = Ok digest w1 ->
  zeros_fit d.
Proof.
  intros Hs Hrun. unfold zeros_fit.
  destruct (str_mul_error "0" d) as [e|] eqn:He; [|done].
  by rewrite (mine_raises _ _ _ _ Hs He) in Hrun.
Qed.
End BlockFacts.


(** ** The nonce search *)

Section SearchFacts.
Variables (ph : string) (d : Z) (th : string).

Lemma search_Some fuel : forall n m,
  search ph d th fuel n = Some m ->
  suits ph d th m = true /\ n <= m <= n + Z.of_nat fuel /\
  (forall k, n <= k < m -> suits ph d th k = false).
Proof.
  induction fuel as [|fuel IH]; intros n m; simpl;
    destruct (suits ph d th n) eqn:Hn; intros Heq; try done.
  - injection Heq as <-. repeat split; [done | lia | lia | intros k Hk; lia].
  - injection Heq as <-. repeat split; [done | lia | lia | intros k Hk; lia].
  - apply IH in Heq as (Hm & Hrange & Hleast). repeat split; [done | lia | lia |].
    intros k Hk. destruct (decide (k = n)) as [->|Hne]; [done|].
    apply Hleast. lia.
Qed.

Lemma search_None fuel : forall n,
  search ph d th fuel n = None ->
  forall k, n <= k <= n + Z.of_nat fuel -> suits ph d th k = false.
Proof.
  induction fuel as [|fuel IH]; intros n; simpl;
    destruct (suits ph d th n) eqn:Hn; intros Heq k Hk; try done.
  - by replace k with n by lia.
  - destruct (decide (k = n)) as [->|Hne]; [done|].
    apply (IH (n + 1)); [done | lia].
Qed.

(** A suitable nonce within reach of the fuel is enough for the search to
    succeed. *)
Lemma search_reaches fuel n m :
  suits ph d th m = true -> n <= m <= n + Z.of_nat fuel ->
  exists m', search ph d th fuel n = Some m' /\ m' <= m.
Proof.
  intros Hm Hrange. destruct (search ph d th fuel n) as [m'|] eqn:Hs.
  - exists m'. split; [done|].
    apply search_Some in Hs as (_ & _ & Hleast).
    destruct (Z.le_gt_cases m' m) as [|Hgt]; [done|].
    rewrite Hleast in Hm by lia. done.
  - rewrite (search_None _ _ Hs m) in Hm by lia. done.
Qed.

(** More fuel does not change a successful search. *)
Lemma search_more_fuel fuel fuel' n m :
  search ph d th fuel n = Some m -> (fuel <= fuel')%nat ->
  search ph d th fuel' n = Some m.
Proof.
  intros Hs Hle. pose proof (search_Some _ _ _ Hs) as (Hm & Hrange & Hleast).
  destruct (search_reaches fuel' n m Hm) as (m' & Hs' & Hle'); [lia|].
  rewrite Hs'. f_equal.
  apply search_Some in Hs' as (Hm' & Hrange' & _).
  destruct (Z.le_gt_cases m m') as [|Hgt]; [lia|].
  rewrite Hleast in Hm' by lia. done.
Qed.

(** The fuel a search needs is the nonce it finds. *)
Lemma search_enough_fuel fuel n m :
  search ph d th fuel n = Some m -> search ph d th (Z.to_nat (m - n)) n = Some m.
Proof.
  intros Hs. pose proof (search_Some _ _ _ Hs) as (Hm & Hrange & Hleast).
  destruct (search_reaches (Z.to_nat (m - n)) n m Hm) as (m' & Hs' & Hle');
    [lia|].
  rewrite Hs'. f_equal.
  apply search_Some in Hs' as (Hm' & Hrange' & _).
  destruct (Z.le_gt_cases m m') as [|Hgt]; [lia|].
  rewrite Hleast in Hm' by lia. done.
Qed.

Lemma suits_nonpos n : d <= 0 -> suits ph d th n = true.
Proof.
  intros Hd. unfold suits. rewrite str_mul_nonpos by done.
  apply endswith_empty.
Qed.

(** No digest has more than sixty-four characters. *)
Lemma suits_above_64 n : 64 < d -> suits ph d th n = false.
Proof.
  intros Hd. unfold suits. apply endswith_too_long.
  unfold proof_hash. rewrite length_sha256, length_str_mul_char. lia.
Qed.

Lemma search_above_64 fuel : forall n, 64 < d -> search ph d th fuel n = None.
Proof.
  induction fuel as [|fuel IH]; intros n Hd; simpl;
    rewrite suits_above_64 by done; [done | by apply IH].
Qed.

Lemma suits_trailing_zeros n :
  suits ph d th n = true ->
  exists p, proof_hash ph d th n = p +:+ str_mul "0" d.
Proof. unfold suits. apply endswith_spec. Qed.
End SearchFacts.

(** ** When the suffix of zeros can be built *)

Section ZerosFit.
Context `{Platform}.

(** ["0" * d] can be built when [d] fits an index and, from two characters
    on, the memory of the interpreter. *)
Lemma zeros_fit_spec (d : Z) :
  zeros_fit d <->
  - 2 ^ 63 <= d < 2 ^ 63 /\ (d < 2 \/ d <= str_capacity).
Proof.
  unfold zeros_fit, str_mul_error, maxsize.
  change (Z.of_nat (String.length "0")) with 1.
  destruct (Z.ltb_spec d (- (2 ^ 63 - 1) - 1)); simpl; [split; [done | lia]|].
  destruct (Z.ltb_spec (2 ^ 63 - 1) d); simpl; [split; [done | lia]|].
  destruct (Z.ltb_spec d 2); [split; [lia | done]|].
  assert (Hdiv : 1 <= (2 ^ 63 - 1) / d) by (apply Z.div_le_lower_bound; lia).
  destruct (Z.ltb_spec ((2 ^ 63 - 1) / d) 1); [lia|].
  destruct (Z.ltb_spec 0 (d * 1)); [|lia]. simpl.
  destruct (Z.ltb_spec str_capacity (d * 1)); split; try done; lia.
Qed.

(** A count that does not fit an index. *)
Lemma str_mul_error_overflow (s : string) (n : Z) :
  n < - 2 ^ 63 \/ 2 ^ 63 <= n -> str_mul_error s n = Some OverflowError.
Proof.
  intros Hn. unfold str_mul_error, maxsize.
  destruct (Z.ltb_spec n (- (2 ^ 63 - 1) - 1)); [done|].
  destruct (Z.ltb_spec (2 ^ 63 - 1) n); [done | lia].
Qed.

(** A difficulty that fits an index and is below one that can be built
    can be built. *)
Lemma zeros_fit_le (d d' : Z) :
  zeros_fit d -> - 2 ^ 63 <= d' <= d -> zeros_fit d'.
Proof. rewrite !zeros_fit_spec. lia. Qed.

Lemma zeros_fit_nonpos (d : Z) : - 2 ^ 63 <= d <= 0 -> zeros_fit d.
Proof. rewrite zeros_fit_spec. lia. Qed.
End ZerosFit.


Section MineInversion.
Context `{Platform}.

(** [mine] returns only on a block, with the nonce [search] finds from 0;
    the world it leaves differs in that nonce alone. *)
Lemma mine_Ok_inv fuel self digest w w1 :
  Block.mine fuel self w = Ok digest w1 ->
  exists vt ph d th n0 m,
    heap w !! self = Some (BlockObj vt ph d th n0) /\
    search ph d th fuel 0 = Some m /\
    digest = proof_hash ph d th m /\
    w1 = with_heap (<[self := BlockObj vt ph d th (Some m)]> (heap w)) w.
Proof.
  intros Hrun.
  destruct (heap w !! self) as [[xs | l c | vt ph d th n0 | l c lh]|] eqn:Hs;
    try (unfold Block.mine, Block.set_nonce, bind, load in Hrun;
         rewrite Hs in Hrun; discriminate).
  pose proof (mine_Ok_fits _ _ _ _ _ _ _ _ _ _ Hs Hrun) as Hfit.
  rewrite (mine_search _ _ _ _ _ _ _ _ Hs Hfit) in Hrun.
  destruct (search ph d th fuel 0) as [m|] eqn:Hm; [|done].
  injection Hrun as <- <-. by exists vt, ph, d, th, n0, m.
Qed.

(** Without enough fuel for the least suitable nonce, [mine] does not
    return. *)
Lemma search_short_fuel ph d th fuel m :
  (forall k, 0 <= k < m -> suits ph d th k = false) ->
  (fuel < Z.to_nat m)%nat ->
  search ph d th fuel 0 = None.
Proof.
  intros Hleast Hfuel.
  destruct (search ph d th fuel 0) as [m'|] eqn:Hs; [|done].
  apply search_Some in Hs as (Hm' & Hrange & _).
  rewrite Hleast in Hm' by lia. done.
Qed.
End MineInversion.

(** ** The transaction pool *)

Section PoolFacts.
Context `{Platform}.

Lemma alloc_spec (o : obj) w :
  exists l, heap w !! l = None
            /\ alloc o w = Ok l (with_heap (<[l := o]> (heap w)) w).
Proof. exists (fresh (dom (heap w))). split; [by apply alloc_fresh | done]. Qed.

(** Writing at a location a heap does not use keeps that heap included. *)
Lemma insert_fresh_subseteq (h h' : gmap loc obj) l o :
  h !! l = None -> h ⊆ h' -> h ⊆ <[l := o]> h'.
Proof.
  intros Hl Hsub. apply map_subseteq_spec. intros i x Hi.
  rewrite lookup_insert_ne by congruence.
  by apply (lookup_weaken h).
Qed.

Lemma attrs_Transactions p l c w :
  heap w !! p = Some (TransactionsObj l c) ->
  Transactions.attrs p w = Ok (l, c) w.
Proof. intros Hp. unfold Transactions.attrs. by mstep. Qed.

Lemma get_lst_Transactions p l c w :
  heap w !! p = Some (TransactionsObj l c) ->
  Transactions.get_lst p w = Ok l w.
Proof.
  intros Hp. unfold Transactions.get_lst.
  by erewrite bind_Ok by (by apply attrs_Transactions).
Qed.

Lemma get_count_Transactions p l c w :
  heap w !! p = Some (TransactionsObj l c) ->
  Transactions.get_count p w = Ok c w.
Proof.
  intros Hp. unfold Transactions.get_count.
  by erewrite bind_Ok by (by apply attrs_Transactions).
Qed.

Lemma set_lst_Transactions p l c l' w :
  heap w !! p = Some (TransactionsObj l c) ->
  Transactions.set_lst p l' w
  = Ok tt (with_heap (<[p := TransactionsObj l' c]> (heap w)) w).
Proof.
  intros Hp. unfold Transactions.set_lst.
  by erewrite bind_Ok by (by apply attrs_Transactions).
Qed.

Lemma set_count_Transactions p l c c' w :
  heap w !! p = Some (TransactionsObj l c) ->
  Transactions.set_count p c' w
  = Ok tt (with_heap (<[p := TransactionsObj l c']> (heap w)) w).
Proof.
  intros Hp. unfold Transactions.set_count.
  by erewrite bind_Ok by (by apply attrs_Transactions).
Qed.

Lemma list_append_PyList l xs v w :
  heap w !! l = Some (PyList xs) ->
  list_append l v w
  = Ok tt (with_heap (<[l := PyList (xs ++ [v])]> (heap w)) w).
Proof. intros Hl. unfold list_append. by mstep. Qed.

Lemma list_clear_PyList l xs w :
  heap w !! l = Some (PyList xs) ->
  list_clear l w = Ok tt (with_heap (<[l := PyList []]> (heap w)) w).
Proof. intros Hl. unfold list_clear. by mstep. Qed.

(** [Transactions()]: two new objects, the rest of the heap as it was. *)
Lemma init_Transactions w :
  exists l p,
    heap w !! l = None /\ heap w !! p = None /\ l <> p /\
    Transactions.__init__ w
    = Ok p (with_heap (<[p := TransactionsObj l 0]>
                         (<[l := PyList []]> (heap w))) w).
Proof.
  destruct (alloc_spec (PyList []) w) as (l & Hl & Hal).
  destruct (alloc_spec (TransactionsObj l 0)
              (with_heap (<[l := PyList []]> (heap w)) w)) as (p & Hp & Hap).
  simpl in Hp. exists l, p.
  assert (l <> p) by (intros ->; by rewrite lookup_insert_eq in Hp).
  rewrite lookup_insert_ne in Hp by done.
  repeat split; try done.
  unfold Transactions.__init__. by rewrite (bind_Ok _ _ _ _ _ Hal).
Qed.

(** [transfer] appends one transaction, stamped with the clock reading,
    and increments the counter. *)
Lemma transfer_pool p l c xs s r v w :
  heap w !! p = Some (TransactionsObj l c) ->
  heap w !! l = Some (PyList xs) ->
  Transactions.transfer p s r v w
  = Ok tt (World
             (<[p := TransactionsObj l (c + 1)]>
                (<[l := PyList (xs ++ [VTransaction
                        (MkTransaction s r v (wall_clock (ticks w)))])]>
                   (heap w)))
             (S (ticks w)) (entropy w)).
Proof.
  intros Hp Hl. assert (l <> p) by congruence.
  unfold Transactions.transfer, Transaction.__init__.
  unfold datetime_now at 1. unfold bind at 2. unfold bind at 1.
  unfold ret at 1.
  erewrite bind_Ok by (by eapply get_lst_Transactions).
  erewrite bind_Ok by (by eapply list_append_PyList).
  erewrite bind_Ok
    by (eapply get_count_Transactions; simpl; by rewrite lookup_insert_ne).
  erewrite set_count_Transactions by (simpl; by rewrite lookup_insert_ne).
  done.
Qed.

(** [clear] empties the list of the pool, in place, and resets the
    counter. *)
Lemma clear_pool p l c xs w :
  heap w !! p = Some (TransactionsObj l c) ->
  heap w !! l = Some (PyList xs) ->
  Transactions.clear p w
  = Ok tt (with_heap (<[p := TransactionsObj l 0]>
                        (<[l := PyList []]> (heap w))) w).
Proof.
  intros Hp Hl. assert (l <> p) by congruence.
  unfold Transactions.clear.
  erewrite bind_Ok by (by eapply get_lst_Transactions).
  erewrite bind_Ok by (by eapply list_clear_PyList).
  erewrite set_count_Transactions by (simpl; by rewrite lookup_insert_ne).
  done.
Qed.

(** [__copy__] builds a new [Transactions] around a new list with the
    same items; nothing that existed is written. *)
Lemma copy_pool p l c xs w :
  heap w !! p = Some (TransactionsObj l c) ->
  heap w !! l = Some (PyList xs) ->
  exists q l' w',
    Transactions.__copy__ p w = Ok q w' /\
    heap w !! q = None /\ heap w !! l' = None /\ q <> l' /\
    heap w' !! q = Some (TransactionsObj l' c) /\
    heap w' !! l' = Some (PyList xs) /\
    heap w ⊆ heap w' /\
    ticks w' = ticks w /\ entropy w' = entropy w.
Proof.
  intros Hp Hl.
  destruct (init_Transactions w) as (l0 & q & Hl0 & Hq & Hne & Hinit).
  set (w1 := with_heap _ w) in Hinit.
  assert (Hp1 : heap w1 !! p = Some (TransactionsObj l c)).
  { simpl. rewrite !lookup_insert_ne by congruence. done. }
  assert (Hl1 : heap w1 !! l = Some (PyList xs)).
  { simpl. rewrite !lookup_insert_ne by congruence. done. }
  destruct (alloc_spec (PyList xs) w1) as (l' & Hl' & Hal').
  set (w2 := with_heap _ w1) in Hal'.
  assert (Hq1 : heap w1 !! q = Some (TransactionsObj l0 0))
    by apply lookup_insert_eq.
  assert (Hql' : q <> l') by congruence.
  assert (Hl0l' : l0 <> l').
  { intros ->. simpl in Hl'. rewrite lookup_insert_ne in Hl' by done.
    by rewrite lookup_insert_eq in Hl'. }
  assert (Hl'w : heap w !! l' = None).
  { simpl in Hl'. by rewrite !lookup_insert_ne in Hl' by done. }
  exists q, l'. eexists. split.
  - unfold Transactions.__copy__.
    rewrite (bind_Ok _ _ _ _ _ Hinit).
    erewrite bind_Ok by (by eapply get_lst_Transactions).
    erewrite bind_Ok by (unfold list_copy; by mstep).
    erewrite bind_Ok
      by (eapply set_lst_Transactions; simpl; by rewrite lookup_insert_ne).
    erewrite bind_Ok
      by (eapply get_count_Transactions; simpl;
          rewrite !lookup_insert_ne by congruence; exact Hp).
    erewrite bind_Ok
      by (eapply set_count_Transactions; simpl; apply lookup_insert_eq).
    reflexivity.
  - simpl. repeat split; try done.
    + apply lookup_insert_eq.
    + rewrite !lookup_insert_ne by done. apply lookup_insert_eq.
    + by repeat apply insert_fresh_subseteq.
Qed.
End PoolFacts.

(** ** Constructing a block *)

Section BlockInitFacts.
Context `{Platform}.

Lemma sign_eq t w :
  Transaction.sign t w
  = Ok (signature t (entropy w))
       (World (heap w) (ticks w) (after_sign t (entropy w))).
Proof. done. Qed.


(** The loop over the snapshot appends the signatures in list order. *)
Lemma sign_each_eq ts : forall str_rep w,
  Block.sign_each (map VTransaction ts) str_rep w
  = Ok (str_rep +:+ concat_str (signatures ts (entropy w)))
       (World (heap w) (ticks w) (after_signs ts (entropy w))).
Proof.
  induction ts as [|t ts IH]; intros str_rep w; simpl.
  - unfold ret. rewrite str_app_nil_r. by destruct w.
  - rewrite (bind_Ok _ _ _ _ _ (sign_eq t w)). rewrite IH. simpl.
    by rewrite str_app_assoc.
Qed.

Lemma compute_transaction_hash_eq self vt ph d th n l c ts w :
  heap w !! self = Some (BlockObj vt ph d th n) ->
  heap w !! vt = Some (TransactionsObj l c) ->
  heap w !! l = Some (PyList (map VTransaction ts)) ->
  Block.compute_transaction_hash self w
  = Ok (sha256 (concat_str (signatures ts (entropy w))))
       (World (heap w) (ticks w) (after_signs ts (entropy w))).
Proof.
  intros Hs Hvt Hl. unfold Block.compute_transaction_hash.
  erewrite bind_Ok by (by eapply get_verified_transactions_Block).
  erewrite bind_Ok by (by eapply get_lst_Transactions).
  erewrite bind_Ok by (by eapply list_items_PyList).
  erewrite bind_Ok by apply sign_each_eq.
  done.
Qed.

Lemma set_transaction_hash_Block self vt ph d th th' n w :
  heap w !! self = Some (BlockObj vt ph d th n) ->
  Block.set_transaction_hash self th' w
  = Ok tt (with_heap (<[self := BlockObj vt ph d th' n]> (heap w)) w).
Proof. intros Hs. unfold Block.set_transaction_hash. by mstep. Qed.

(** [Block(...)]: the pool is copied, the signatures of the copy are
    hashed, and the new block is the only object that refers to the copy.
    Nothing that existed is written; the random source has served the
    signatures. *)
Lemma init_Block p l c ts ph d w :
  heap w !! p = Some (TransactionsObj l c) ->
  heap w !! l = Some (PyList (map VTransaction ts)) ->
  exists b q l' w',
    Block.__init__ p ph d w = Ok b w' /\
    heap w !! b = None /\ heap w !! q = None /\ heap w !! l' = None /\
    heap w ⊆ heap w' /\
    heap w' !! b
    = Some (BlockObj q ph d (sha256 (concat_str (signatures ts (entropy w)))) None) /\
    heap w' !! q = Some (TransactionsObj l' c) /\
    heap w' !! l' = Some (PyList (map VTransaction ts)) /\
    ticks w' = ticks w /\ entropy w' = after_signs ts (entropy w).
Proof.
  intros Hp Hl.
  destruct (copy_pool _ _ _ _ _ Hp Hl)
    as (q & l' & w1 & Hcopy & Hq & Hl' & Hql' & Hq1 & Hl'1 & Hsub & Ht1 & He1).
  destruct (alloc_spec (BlockObj q ph d "" None) w1) as (b & Hb & Hab).
  set (w2 := with_heap _ w1) in Hab.
  assert (Hb2 : heap w2 !! b = Some (BlockObj q ph d "" None))
    by apply lookup_insert_eq.
  assert (Hq2 : heap w2 !! q = Some (TransactionsObj l' c)).
  { simpl. by rewrite lookup_insert_ne by congruence. }
  assert (Hl'2 : heap w2 !! l' = Some (PyList (map VTransaction ts))).
  { simpl. by rewrite lookup_insert_ne by congruence. }
  exists b, q, l'. eexists. split.
  - unfold Block.__init__.
    rewrite (bind_Ok _ _ _ _ _ Hcopy), (bind_Ok _ _ _ _ _ Hab).
    erewrite bind_Ok by (by eapply compute_transaction_hash_eq).
    erewrite bind_Ok by (by eapply set_transaction_hash_Block).
    erewrite bind_Ok
      by (eapply set_nonce_Block; simpl; apply lookup_insert_eq).
    reflexivity.
  - simpl. rewrite !insert_insert_eq, He1.
    repeat split; try done.
    + destruct (heap w !! b) as [o|] eqn:Hwb; [|done].
      apply (lookup_weaken _ _ _ _ Hwb) in Hsub. congruence.
    + by apply insert_fresh_subseteq;
        [destruct (heap w !! b) as [o|] eqn:Hwb; [|done];
         apply (lookup_weaken _ _ _ _ Hwb) in Hsub; congruence|].
    + apply lookup_insert_eq.
    + by rewrite lookup_insert_ne by congruence.
    + by rewrite lookup_insert_ne by congruence.
Qed.
End BlockInitFacts.

(** ** The chain *)

Section ChainFacts.
Context `{Platform}.

Lemma attrs_Blockchain bc lb cnt last w :
  heap w !! bc = Some (BlockchainObj lb cnt last) ->
  Blockchain.attrs bc w = Ok (lb, cnt, last) w.
Proof. intros Hbc. unfold Blockchain.attrs. by mstep. Qed.

Lemma get_lst_Blockchain bc lb cnt last w :
  heap w !! bc = Some (BlockchainObj lb cnt last) ->
  Blockchain.get_lst bc w = Ok lb w.
Proof.
  intros Hbc. unfold Blockchain.get_lst.
  by erewrite bind_Ok by (by apply attrs_Blockchain).
Qed.

Lemma get_count_Blockchain bc lb cnt last w :
  heap w !! bc = Some (BlockchainObj lb cnt last) ->
  Blockchain.get_count bc w = Ok cnt w.
Proof.
  intros Hbc. unfold Blockchain.get_count.
  by erewrite bind_Ok by (by apply attrs_Blockchain).
Qed.

Lemma get_last_hash_Blockchain bc lb cnt last w :
  heap w !! bc = Some (BlockchainObj lb cnt last) ->
  Blockchain.get_last_hash bc w = Ok last w.
Proof.
  intros Hbc. unfold Blockchain.get_last_hash.
  by erewrite bind_Ok by (by apply attrs_Blockchain).
Qed.

Lemma set_count_Blockchain bc lb cnt last cnt' w :
  heap w !! bc = Some (BlockchainObj lb cnt last) ->
  Blockchain.set_count bc cnt' w
  = Ok tt (with_heap (<[bc := BlockchainObj lb cnt' last]> (heap w)) w).
Proof.
  intros Hbc. unfold Blockchain.set_count.
  by erewrite bind_Ok by (by apply attrs_Blockchain).
Qed.

Lemma set_last_hash_Blockchain bc lb cnt last last' w :
  heap w !! bc = Some (BlockchainObj lb cnt last) ->
  Blockchain.set_last_hash bc last' w
  = Ok tt (with_heap (<[bc := BlockchainObj lb cnt last']> (heap w)) w).
Proof.
  intros Hbc. unfold Blockchain.set_last_hash.
  by erewrite bind_Ok by (by apply attrs_Blockchain).
Qed.

(** [Blockchain()]: an empty list, a zero counter, an empty last hash. *)
Lemma init_Blockchain w :
  exists lb bc,
    heap w !! lb = None /\ heap w !! bc = None /\ lb <> bc /\
    Blockchain.__init__ w
    = Ok bc (with_heap (<[bc := BlockchainObj lb 0 ""]>
                          (<[lb := PyList []]> (heap w))) w).
Proof.
  destruct (alloc_spec (PyList []) w) as (lb & Hlb & Hal).
  destruct (alloc_spec (BlockchainObj lb 0 "")
              (with_heap (<[lb := PyList []]> (heap w)) w)) as (bc & Hbc & Hab).
  simpl in Hbc. exists lb, bc.
  assert (lb <> bc) by (intros ->; by rewrite lookup_insert_eq in Hbc).
  rewrite lookup_insert_ne in Hbc by done.
  repeat split; try done.
  unfold Blockchain.__init__. by rewrite (bind_Ok _ _ _ _ _ Hal).
Qed.

Lemma py_index_last {A} (xs : list A) (v : A) :
  py_index (xs ++ [v]) (Z.of_nat (length (xs ++ [v])) - 1) = Some v.
Proof.
  unfold py_index. rewrite length_app. simpl length.
  set (n := Z.of_nat (length xs + 1)).
  assert (Hn : n = Z.of_nat (length xs) + 1) by lia.
  destruct (Z.ltb_spec (n - 1) 0); [lia|].
  destruct (Z.ltb_spec (n - 1) 0); [lia|].
  destruct (Z.leb_spec n (n - 1)); [lia|].
  simpl. replace (Z.to_nat (n - 1)) with (length xs) by lia.
  apply list_lookup_middle. done.
Qed.

(** Indexing at [len - 1] yields the last item of a non-empty list. *)
Lemma list_getitem_last l xs v w :
  heap w !! l = Some (PyList (xs ++ [v])) ->
  list_getitem l (Z.of_nat (length (xs ++ [v])) - 1) w = Ok v w.
Proof.
  intros Hl. unfold list_getitem.
  erewrite bind_Ok by (by eapply list_items_PyList).
  by rewrite py_index_last.
Qed.

(** Indexing an empty list at [-1] raises [IndexError]. *)
Lemma list_getitem_empty l w :
  heap w !! l = Some (PyList []) ->
  list_getitem l (0 - 1) w = Raise IndexError w.
Proof.
  intros Hl. unfold list_getitem.
  erewrite bind_Ok by (by eapply list_items_PyList).
  done.
Qed.

(** [create_block] builds a block on the current last hash and appends
    it. *)
Lemma create_block_chain bc lb cnt last items p l c ts d w :
  heap w !! bc = Some (BlockchainObj lb cnt last) ->
  heap w !! lb = Some (PyList items) ->
  heap w !! p = Some (TransactionsObj l c) ->
  heap w !! l = Some (PyList (map VTransaction ts)) ->
  exists b q l' w1,
    Block.__init__ p last d w = Ok b w1 /\
    heap w !! b = None /\ heap w !! q = None /\ heap w !! l' = None /\
    heap w ⊆ heap w1 /\
    heap w1 !! b
    = Some (BlockObj q last d (sha256 (concat_str (signatures ts (entropy w)))) None) /\
    heap w1 !! q = Some (TransactionsObj l' c) /\
    heap w1 !! l' = Some (PyList (map VTransaction ts)) /\
    Blockchain.create_block bc p d w
    = Ok tt (with_heap
               (<[bc := BlockchainObj lb (cnt + 1) last]>
                  (<[lb := PyList (items ++ [VRef b])]> (heap w1))) w1).
Proof.
  intros Hbc Hlb Hp Hl.
  destruct (init_Block _ _ _ _ last d _ Hp Hl)
    as (b & q & l' & w1 & Hinit & Hb & Hq & Hl' & Hsub & Hb1 & Hq1 & Hl'1 & _).
  pose proof (lookup_weaken _ _ _ _ Hbc Hsub) as Hbc1.
  pose proof (lookup_weaken _ _ _ _ Hlb Hsub) as Hlb1.
  exists b, q, l', w1. repeat split; try done.
  unfold Blockchain.create_block.
  erewrite bind_Ok by (by eapply get_last_hash_Blockchain).
  rewrite (bind_Ok _ _ _ _ _ Hinit).
  erewrite bind_Ok by (by eapply get_lst_Blockchain).
  erewrite bind_Ok by (by eapply list_append_PyList).
  erewrite bind_Ok
    by (eapply get_count_Blockchain; simpl;
        rewrite lookup_insert_ne by congruence; exact Hbc1).
  erewrite set_count_Blockchain
    by (simpl; rewrite lookup_insert_ne by congruence; exact Hbc1).
  done.
Qed.

(** [mine_last_block] on a chain whose last item is block [b]: [b] is
    mined and its digest becomes the last hash. *)
Lemma mine_last_block_chain fuel bc lb last items b vt ph d th n0 w :
  heap w !! bc
  = Some (BlockchainObj lb (Z.of_nat (length (items ++ [VRef b]))) last) ->
  heap w !! lb = Some (PyList (items ++ [VRef b])) ->
  heap w !! b = Some (BlockObj vt ph d th n0) ->
  zeros_fit d ->
  Blockchain.mine_last_block fuel bc w
  = match search ph d th fuel 0 with
    | Some m =>
        Ok tt (with_heap
                 (<[bc := BlockchainObj lb (Z.of_nat (length (items ++ [VRef b])))
                            (proof_hash ph d th m)]>
                    (<[b := BlockObj vt ph d th (Some m)]> (heap w))) w)
    | None => OutOfFuel
    end.
Proof.
  intros Hbc Hlb Hb Hfit. unfold Blockchain.mine_last_block.
  erewrite bind_Ok by (by eapply get_lst_Blockchain).
  erewrite bind_Ok by (by eapply get_count_Blockchain).
  erewrite bind_Ok by (by eapply list_getitem_last).
  cbv beta match. unfold bind at 1.
  rewrite (mine_search _ _ _ _ _ _ _ _ Hb Hfit).
  destruct (search ph d th fuel 0) as [m|]; [|done].
  erewrite set_last_hash_Blockchain
    by (simpl; rewrite lookup_insert_ne by congruence; exact Hbc).
  done.
Qed.

(** When ["0" * difficulty] cannot be built for the last block,
    [mine_last_block] ends with the error of [mine]: the nonce of the
    block has been set to 0 and the last hash is not assigned. *)
Lemma mine_last_block_raises fuel bc lb last items b vt ph d th n0 e w :
  heap w !! bc
  = Some (BlockchainObj lb (Z.of_nat (length (items ++ [VRef b]))) last) ->
  heap w !! lb = Some (PyList (items ++ [VRef b])) ->
  heap w !! b = Some (BlockObj vt ph d th n0) ->
  str_mul_error "0" d = Some e ->
  Blockchain.mine_last_block fuel bc w
  = Raise e (with_heap (<[b := BlockObj vt ph d th (Some 0)]> (heap w)) w).
Proof.
  intros Hbc Hlb Hb He. unfold Blockchain.mine_last_block.
  erewrite bind_Ok by (by eapply get_lst_Blockchain).
  erewrite bind_Ok by (by eapply get_count_Blockchain).
  erewrite bind_Ok by (by eapply list_getitem_last).
  cbv beta match. unfold bind at 1.
  by rewrite (mine_raises _ _ _ _ _ _ _ _ _ Hb He).
Qed.

(** [mine_last_block] returns only when the suffix can be built. *)
Lemma mine_last_block_Ok_fits fuel bc lb last items b vt ph d th n0 w w' :
  heap w !! bc
  = Some (BlockchainObj lb (Z.of_nat (length (items ++ [VRef b]))) last) ->
  heap w !! lb = Some (PyList (items ++ [VRef b])) ->
  heap w !! b = Some (BlockObj vt ph d th n0) ->
  Blockchain.mine_last_block fuel bc w = Ok tt w' ->
  zeros_fit d.
Proof.
  intros Hbc Hlb Hb Hrun. unfold zeros_fit.
  destruct (str_mul_error "0" d) as [e|] eqn:He; [|done].
  by rewrite (mine_last_block_raises _ _ _ _ _ _ _ _ _ _ _ _ _ Hbc Hlb Hb He)
    in Hrun.
Qed.

(** [mine_last_block] on a chain without blocks. *)
Lemma mine_last_block_empty fuel bc lb last w :
  heap w !! bc = Some (BlockchainObj lb 0 last) ->
  heap w !! lb = Some (PyList []) ->
  Blockchain.mine_last_block fuel bc w = Raise IndexError w.
Proof.
  intros Hbc Hlb. unfold Blockchain.mine_last_block.
  erewrite bind_Ok by (by eapply get_lst_Blockchain).
  erewrite bind_Ok by (by eapply get_count_Blockchain).
  by erewrite bind_Raise by (by eapply list_getitem_empty).
Qed.
End ChainFacts.

(** ** Rendering is injective *)

Lemma byte_to_of_Z (z : Z) : 0 <= z < 256 -> byte_to_Z (byte_of_Z z) = z.
Proof.
  intros Hz. unfold byte_to_Z, byte_of_Z. rewrite Z.mod_small by lia.
  destruct (Byte.of_N (Z.to_N z)) as [b|] eqn:Hb.
  - apply Byte.to_of_N in Hb. lia.
  - apply Byte.of_N_None_iff in Hb. lia.
Qed.

Lemma byte_of_Z_inj (x y : Z) :
  0 <= x < 256 -> 0 <= y < 256 -> byte_of_Z x = byte_of_Z y -> x = y.
Proof.
  intros Hx Hy Heq. apply (f_equal byte_to_Z) in Heq.
  by rewrite !byte_to_of_Z in Heq.
Qed.

(** The UTF-8 encoding determines the string. *)
Lemma encode_utf8_inj (s1 s2 : string) :
  encode_utf8 s1 = encode_utf8 s2 -> s1 = s2.
Proof.
  revert s2. induction s1 as [|c1 s1 IH]; intros [|c2 s2]; simpl.
  - done.
  - unfold utf8_char. destruct (ord c2 <? 128); discriminate.
  - unfold utf8_char. destruct (ord c1 <? 128); discriminate.
  - pose proof (ord_bounded c1) as H1. pose proof (ord_bounded c2) as H2.
    unfold utf8_char.
    destruct (Z.ltb_spec (ord c1) 128), (Z.ltb_spec (ord c2) 128);
      simpl; intros Heq.
    + injection Heq as Hb Hrest.
      apply byte_of_Z_inj in Hb; [|lia..].
      apply ord_inj in Hb as ->. f_equal. by apply IH.
    + injection Heq as Hb _.
      pose proof (Z.div_pos (ord c2) 64).
      assert (ord c2 / 64 < 4) by (apply Z.div_lt_upper_bound; lia).
      apply byte_of_Z_inj in Hb; lia.
    + injection Heq as Hb _.
      pose proof (Z.div_pos (ord c1) 64).
      assert (ord c1 / 64 < 4) by (apply Z.div_lt_upper_bound; lia).
      apply byte_of_Z_inj in Hb; lia.
    + injection Heq as Hb1 Hb2 Hrest.
      assert (ord c1 / 64 < 4) by (apply Z.div_lt_upper_bound; lia).
      assert (ord c2 / 64 < 4) by (apply Z.div_lt_upper_bound; lia).
      pose proof (Z.div_pos (ord c1) 64).
      pose proof (Z.div_pos (ord c2) 64).
      pose proof (Z.mod_pos_bound (ord c1) 64).
      pose proof (Z.mod_pos_bound (ord c2) 64).
      apply byte_of_Z_inj in Hb1; [|lia..].
      apply byte_of_Z_inj in Hb2; [|lia..].
      assert (Hord : ord c1 = ord c2).
      { rewrite (Z.div_mod (ord c1) 64), (Z.div_mod (ord c2) 64) by lia. lia. }
      apply ord_inj in Hord as ->. f_equal. by apply IH.
Qed.

(** Two strings of characters of one class, each followed by a character
    outside the class, are equal when the whole texts are. *)
Lemma str_sep (P : ascii -> Prop) (a b : string) (x y : ascii) (r r' : string) :
  all_chars P a -> all_chars P b -> ~ P x -> ~ P y ->
  a +:+ String x r = b +:+ String y r' -> a = b /\ x = y /\ r = r'.
Proof.
  revert b. induction a as [|c a IH]; intros [|c' b]; simpl;
    intros Ha Hb Hx Hy Heq.
  - by injection Heq as -> ->.
  - injection Heq as -> _. by destruct Hb.
  - injection Heq as -> _. by destruct Ha.
  - injection Heq as -> Heq. destruct Ha as [_ Ha], Hb as [_ Hb].
    destruct (IH b Ha Hb Hx Hy Heq) as (-> & -> & ->). done.
Qed.

Lemma string_of_uint_intchars (d : Decimal.uint) :
  all_chars is_intchar (NilEmpty.string_of_uint d).
Proof.
  induction d; simpl; try done; (split; [|done]); right; by vm_compute.
Qed.

Lemma str_int_intchars (z : Z) : all_chars is_intchar (str_int z).
Proof.
  unfold str_int, NilZero.string_of_int, NilZero.string_of_uint.
  destruct (Z.to_int z) as [d|d]; simpl.
  - destruct d; try apply string_of_uint_intchars.
    simpl. split; [|done]. right. by vm_compute.
  - split; [by left|].
    destruct d; try apply string_of_uint_intchars.
    simpl. split; [|done]. right. by vm_compute.
Qed.

Lemma str_int_inj (x y : Z) : str_int x = str_int y -> x = y.
Proof.
  unfold str_int. intros Heq.
  assert (Hnn : forall z, Z.to_int z <> Decimal.Pos Decimal.Nil
                          /\ Z.to_int z <> Decimal.Neg Decimal.Nil).
  { intros [|p|p]; simpl; split; try done; intros [= Hp];
      by apply DecimalPos.Unsigned.to_uint_nonnil in Hp. }
  apply (f_equal NilZero.int_of_string) in Heq.
  rewrite !NilZero.isi in Heq by apply Hnn.
  injection Heq as Heq. by apply DecimalZ.to_int_inj.
Qed.

Lemma not_intchar_comma : ~ is_intchar ",".
Proof. unfold is_intchar. vm_compute. intuition congruence. Qed.

Lemma not_intchar_paren : ~ is_intchar ")".
Proof. unfold is_intchar. vm_compute. intuition congruence. Qed.

Lemma join_cons2 (sep x y : string) (l : list string) :
  join sep (x :: y :: l) = x +:+ sep +:+ join sep (y :: l).
Proof. done. Qed.

(** Integers joined by [", "] and closed by a parenthesis determine the
    list of integers. *)
Lemma join_ints_inj (l1 : list Z) : forall (l2 : list Z) (r1 r2 : string),
  l1 <> [] -> l2 <> [] ->
  join ", " (map str_int l1) +:+ String ")" r1
  = join ", " (map str_int l2) +:+ String ")" r2 ->
  l1 = l2 /\ r1 = r2.
Proof.
  induction l1 as [|a l1 IH]; intros [|b l2] r1 r2 Hn1 Hn2; try done.
  destruct l1 as [|a2 l1], l2 as [|b2 l2]; simpl map;
    rewrite ?join_cons2, ?str_app_assoc; simpl join; intros Heq.
  - apply str_sep with (P := is_intchar) in Heq
      as (Hab & _ & ->);
      auto using str_int_intchars, not_intchar_paren.
    by apply str_int_inj in Hab as ->.
  - apply str_sep with (P := is_intchar) in Heq as (_ & Hc & _);
      auto using str_int_intchars, not_intchar_paren, not_intchar_comma.
    discriminate.
  - apply str_sep with (P := is_intchar) in Heq as (_ & Hc & _);
      auto using str_int_intchars, not_intchar_paren, not_intchar_comma.
    discriminate.
  - apply str_sep with (P := is_intchar) in Heq as (Hab & _ & Hrest);
      auto using str_int_intchars, not_intchar_comma.
    apply str_int_inj in Hab as ->. injection Hrest as Hrest.
    destruct (IH (b2 :: l2) r1 r2) as (Hl & ->); try done.
    by rewrite Hl.
Qed.

Lemma datetime_fields_inj (d1 d2 : datetime) :
  datetime_fields d1 = datetime_fields d2 -> d1 = d2.
Proof.
  destruct d1 as [y1 mo1 dd1 h1 mi1 s1 us1], d2 as [y2 mo2 dd2 h2 mi2 s2 us2].
  unfold datetime_fields. simpl.
  destruct (Z.eqb_spec us1 0), (Z.eqb_spec s1 0),
    (Z.eqb_spec us2 0), (Z.eqb_spec s2 0); simpl; intros Heq;
    simplify_eq; done.
Qed.

Lemma datetime_fields_nonempty (d : datetime) : datetime_fields d <> [].
Proof.
  unfold datetime_fields.
  destruct (microsecond d =? 0), (second d =? 0); done.
Qed.

Lemma repr_datetime_inj (d1 d2 : datetime) (r1 r2 : string) :
  repr_datetime d1 +:+ r1 = repr_datetime d2 +:+ r2 -> d1 = d2 /\ r1 = r2.
Proof.
  unfold repr_datetime. rewrite !str_app_assoc. intros Heq.
  apply str_app_inv_head in Heq. simpl in Heq.
  apply join_ints_inj in Heq as (Hf & ->);
    auto using datetime_fields_nonempty.
  by apply datetime_fields_inj in Hf as ->.
Qed.

(** *** Hexadecimal strings are quoted as they are *)

Lemma hex_not_special (c : ascii) :
  is_hexdigit c ->
  Ascii.eqb c "'" = false /\ Ascii.eqb c dquote = false /\
  Ascii.eqb c "\" = false.
Proof.
  intros Hc. repeat split; apply Ascii.eqb_neq; intros ->;
    unfold is_hexdigit in Hc; vm_compute in Hc; intuition congruence.
Qed.

Lemma repr_char_hex (c : ascii) :
  is_hexdigit c -> repr_char "'" c = String c "".
Proof.
  intros Hc. destruct (hex_not_special c Hc) as (Hq & _ & Hb).
  unfold repr_char. rewrite Hq, Hb. simpl orb.
  unfold is_hexdigit in Hc.
  destruct (Z.eqb_spec (ord c) 9); [lia|].
  destruct (Z.eqb_spec (ord c) 10); [lia|].
  destruct (Z.eqb_spec (ord c) 13); [lia|].
  destruct (Z.ltb_spec (ord c) 32); [lia|].
  destruct (Z.eqb_spec (ord c) 127); [lia|].
  destruct (Z.ltb_spec (ord c) 127); [done|lia].
Qed.

Lemma repr_chars_hex (s : string) :
  all_chars is_hexdigit s -> repr_chars "'" s = s.
Proof.
  induction s as [|c s IH]; simpl; [done|]. intros [Hc Hs].
  by rewrite repr_char_hex, IH.
Qed.

Lemma str_contains_hex (s : string) :
  all_chars is_hexdigit s -> str_contains "'" s = false.
Proof.
  induction s as [|c s IH]; simpl; [done|]. intros [Hc Hs].
  destruct (hex_not_special c Hc) as (-> & _). by apply IH.
Qed.

Lemma repr_str_hex (s : string) :
  all_chars is_hexdigit s -> repr_str s = String "'" (s +:+ "'").
Proof.
  intros Hs. unfold repr_str, repr_quote.
  rewrite str_contains_hex by done. simpl.
  by rewrite repr_chars_hex.
Qed.

Lemma not_hexdigit_quote : ~ is_hexdigit "'".
Proof. unfold is_hexdigit. vm_compute. intuition congruence. Qed.

(** *** The text a transaction is signed over *)

Section CanonicalText.
Context `{Platform}.

Lemma identity_is_hex (n : node) : all_chars is_hexdigit (Node.identity n).
Proof. apply hexlify_is_hex. Qed.

(** [str(self.to_dict())], spelled out. *)
Lemma str_to_dict (t : transaction) :
  str_dict (Transaction.to_dict t)
  = "{'sender': '" +:+ Node.identity (sender t)
    +:+ "', 'receiver': '" +:+ Node.identity (receiver t)
    +:+ "', 'value': " +:+ str_int (value t)
    +:+ ", 'time': " +:+ repr_datetime (timestamp t) +:+ "}".
Proof.
  unfold str_dict, Transaction.to_dict. simpl map.
  rewrite !join_cons2. unfold repr_item. simpl fst. simpl snd. simpl repr.
  rewrite (repr_str_hex (Node.identity (sender t))),
    (repr_str_hex (Node.identity (receiver t))) by apply identity_is_hex.
  change (repr_str "sender") with "'sender'".
  change (repr_str "receiver") with "'receiver'".
  change (repr_str "value") with "'value'".
  change (repr_str "time") with "'time'".
  simpl join. rewrite !str_app_assoc. simpl. rewrite !str_app_assoc. done.
Qed.

(** The text determines the four fields it is made of. *)
Lemma str_to_dict_inj (t1 t2 : transaction) :
  str_dict (Transaction.to_dict t1) = str_dict (Transaction.to_dict t2) ->
  Node.identity (sender t1) = Node.identity (sender t2) /\
  Node.identity (receiver t1) = Node.identity (receiver t2) /\
  value t1 = value t2 /\ timestamp t1 = timestamp t2.
Proof.
  rewrite !str_to_dict. intros Heq.
  apply str_app_inv_head in Heq. simpl in Heq.
  apply str_sep with (P := is_hexdigit) in Heq as (Hs & _ & Heq);
    auto using identity_is_hex, not_hexdigit_quote.
  apply (str_app_inv_head ", 'receiver': '") in Heq.
  apply str_sep with (P := is_hexdigit) in Heq as (Hr & _ & Heq);
    auto using identity_is_hex, not_hexdigit_quote.
  apply (str_app_inv_head ", 'value': ") in Heq.
  apply str_sep with (P := is_intchar) in Heq as (Hv & _ & Heq);
    auto using str_int_intchars, not_intchar_comma.
  apply str_int_inj in Hv.
  apply (str_app_inv_head " 'time': ") in Heq.
  apply repr_datetime_inj in Heq as (Ht & _).
  done.
Qed.
End CanonicalText.

(** ** The protocol keeps the chain linked *)

Section ProtocolFacts.
Context `{Platform}.

Lemma chain_inv_fresh bc pools w0 w :
  (forall p, p ∈ pools -> exists ts c, is_pool w0 p (map VTransaction ts) c) ->
  Blockchain.__init__ w0 = Ok bc w ->
  chain_inv w bc pools [].
Proof.
  intros Hpools Hinit.
  destruct (init_Blockchain w0) as (lb & bc' & Hlb & Hbc & Hne & Hinit').
  rewrite Hinit' in Hinit. injection Hinit as -> <-.
  exists lb, []. simpl. repeat split.
  - apply lookup_insert_eq.
  - rewrite lookup_insert_ne by done. apply lookup_insert_eq.
  - intros i b Hi. by rewrite lookup_nil in Hi.
  - intros p Hp. destruct (Hpools p Hp) as (ts & c & l & Hp0 & Hl0).
    exists l, c, ts. rewrite !lookup_insert_ne by congruence.
    repeat split; try done. congruence.
Qed.

Lemma chain_inv_new_pool bc pools w hs p w' :
  chain_inv w bc pools hs ->
  Transactions.__init__ w = Ok p w' ->
  chain_inv w' bc ({[p]} ∪ pools) hs.
Proof.
  intros (lb & blocs & Hlen & Hbc & Hlb & Hblocks & Hpools) Hinit.
  destruct (init_Transactions w) as (l & p' & Hl & Hp & Hne & Hinit').
  rewrite Hinit' in Hinit. injection Hinit as -> <-.
  exists lb, blocs. simpl. repeat split; try done.
  - by rewrite !lookup_insert_ne by congruence.
  - by rewrite !lookup_insert_ne by congruence.
  - intros i b Hi. destruct (Hblocks i b Hi) as (vt & d & th & n & Hb).
    exists vt, d, th, n. by rewrite !lookup_insert_ne by congruence.
  - intros q Hq. apply elem_of_union in Hq as [Hq|Hq].
    + apply elem_of_singleton in Hq as ->. exists l, 0, [].
      rewrite lookup_insert_eq, lookup_insert_ne by done.
      rewrite lookup_insert_eq. repeat split; try done. congruence.
    + destruct (Hpools q Hq) as (l' & c & ts & Hq0 & Hl0 & Hne').
      exists l', c, ts. by rewrite !lookup_insert_ne by congruence.
Qed.

(** Writing the list and the counter of one pool of the caller keeps the
    invariant, when the list still holds transactions. *)
Lemma chain_inv_pool_write bc pools w hs p l c c' ts' t e :
  chain_inv w bc pools hs ->
  p ∈ pools ->
  heap w !! p = Some (TransactionsObj l c) ->
  chain_inv
    (World (<[p := TransactionsObj l c']>
              (<[l := PyList (map VTransaction ts')]> (heap w))) t e)
    bc pools hs.
Proof.
  intros (lb & blocs & Hlen & Hbc & Hlb & Hblocks & Hpools) Hin Hp.
  destruct (Hpools p Hin) as (l0 & c0 & ts & Hp0 & Hl & Hne).
  rewrite Hp in Hp0. injection Hp0 as <- <-.
  exists lb, blocs. simpl. repeat split; try done.
  - by rewrite !lookup_insert_ne by congruence.
  - by rewrite !lookup_insert_ne by congruence.
  - intros i b Hi. destruct (Hblocks i b Hi) as (vt & d & th & n & Hb).
    exists vt, d, th, n. by rewrite !lookup_insert_ne by congruence.
  - intros q Hq. destruct (Hpools q Hq) as (l' & cq & tsq & Hq0 & Hl' & Hne').
    destruct (decide (q = p)) as [->|Hqp].
    + rewrite Hp in Hq0. injection Hq0 as <- <-.
      exists l, c', ts'. rewrite lookup_insert_eq.
      rewrite lookup_insert_ne by congruence. by rewrite lookup_insert_eq.
    + destruct (decide (l' = l)) as [->|Hll].
      * exists l, cq, ts'. rewrite lookup_insert_ne by done.
        rewrite lookup_insert_ne by congruence.
        rewrite lookup_insert_ne by congruence. by rewrite lookup_insert_eq.
      * exists l', cq, tsq. rewrite lookup_insert_ne by done.
        rewrite lookup_insert_ne by congruence.
        rewrite lookup_insert_ne by congruence.
        by rewrite lookup_insert_ne by done.
Qed.

Lemma chain_inv_transfer bc pools w hs p s r v w' :
  chain_inv w bc pools hs ->
  p ∈ pools ->
  Transactions.transfer p s r v w = Ok tt w' ->
  chain_inv w' bc pools hs.
Proof.
  intros Hinv Hin Hrun.
  pose proof Hinv as (lb & blocs & _ & _ & _ & _ & Hpools).
  destruct (Hpools p Hin) as (l & c & ts & Hp & Hl & _).
  rewrite (transfer_pool _ _ _ _ s r v _ Hp Hl) in Hrun.
  injection Hrun as <-.
  change [VTransaction (MkTransaction s r v (wall_clock (ticks w)))]
    with (map VTransaction [MkTransaction s r v (wall_clock (ticks w))]).
  rewrite <- map_app. by eapply chain_inv_pool_write.
Qed.

Lemma chain_inv_clear bc pools w hs p w' :
  chain_inv w bc pools hs ->
  p ∈ pools ->
  Transactions.clear p w = Ok tt w' ->
  chain_inv w' bc pools hs.
Proof.
  intros Hinv Hin Hrun.
  pose proof Hinv as (lb & blocs & _ & _ & _ & _ & Hpools).
  destruct (Hpools p Hin) as (l & c & ts & Hp & Hl & _).
  rewrite (clear_pool _ _ _ _ _ Hp Hl) in Hrun.
  injection Hrun as <-.
  change (PyList []) with (PyList (map VTransaction [])).
  by eapply chain_inv_pool_write.
Qed.

Lemma link_app_lt hs digest i :
  (i <= length hs)%nat -> link (hs ++ [digest]) i = link hs i.
Proof.
  intros Hi. destruct i as [|j]; simpl; [done|].
  by rewrite lookup_app_l by lia.
Qed.

Lemma link_app_last hs digest :
  link (hs ++ [digest]) (length (hs ++ [digest])) = digest.
Proof.
  rewrite length_app. simpl. rewrite Nat.add_1_r. simpl.
  by rewrite list_lookup_middle.
Qed.

(** A round: a block is created on the last hash and appended, then mined,
    and its digest becomes the last hash. *)
Lemma chain_inv_round bc pools w hs p d fuel w1 b digest wm w2 :
  chain_inv w bc pools hs ->
  p ∈ pools ->
  Blockchain.create_block bc p d w = Ok tt w1 ->
  last_block w1 bc = Some b ->
  Block.mine fuel b w1 = Ok digest wm ->
  Blockchain.mine_last_block fuel bc w1 = Ok tt w2 ->
  chain_inv w2 bc pools (hs ++ [digest]).
Proof.
  intros (lb & blocs & Hlen & Hbc & Hlb & Hblocks & Hpools) Hin
    Hcreate Hlast Hmine Hmlb.
  destruct (Hpools p Hin) as (l & c & ts & Hp & Hl & Hllb).
  destruct (create_block_chain _ _ _ _ _ _ _ _ _ d _ Hbc Hlb Hp Hl)
    as (b' & q & l' & wi & _ & Hb' & Hq & Hl' & Hsub & Hbi & Hqi & Hl'i & Hrun).
  rewrite Hrun in Hcreate. injection Hcreate as <-.
  pose proof (lookup_weaken _ _ _ _ Hbc Hsub) as Hbci.
  pose proof (lookup_weaken _ _ _ _ Hlb Hsub) as Hlbi.
  (* the world after [create_block] *)
  set (w1 := with_heap _ wi) in *.
  assert (Hne1 : lb <> bc) by congruence.
  assert (Hbc1 : heap w1 !! bc
                 = Some (BlockchainObj lb
                           (Z.of_nat (length (map VRef blocs ++ [VRef b'])))
                           (link hs (length hs)))).
  { simpl. rewrite lookup_insert_eq. do 2 f_equal.
    rewrite length_app, length_map. simpl. lia. }
  assert (Hlb1 : heap w1 !! lb = Some (PyList (map VRef blocs ++ [VRef b']))).
  { simpl. rewrite lookup_insert_ne by done. apply lookup_insert_eq. }
  assert (Hb1 : heap w1 !! b'
                = Some (BlockObj q (link hs (length hs)) d
                          (sha256 (concat_str (signatures ts (entropy w)))) None)).
  { simpl. by rewrite !lookup_insert_ne by congruence. }
  (* the block that is mined is the new one *)
  assert (b = b') as ->.
  { unfold last_block in Hlast. rewrite Hbc1, Hlb1, py_index_last in Hlast.
    by injection Hlast. }
  pose proof (mine_Ok_fits _ _ _ _ _ _ _ _ _ _ Hb1 Hmine) as Hfit.
  rewrite (mine_search _ _ _ _ _ _ _ _ Hb1 Hfit) in Hmine.
  rewrite (mine_last_block_chain _ _ _ _ _ _ _ _ _ _ _ _ Hbc1 Hlb1 Hb1 Hfit)
    in Hmlb.
  destruct (search _ _ _ fuel 0) as [m|]; [|done].
  injection Hmine as <- _. injection Hmlb as <-.
  exists lb, (blocs ++ [b']). simpl.
  rewrite link_app_last.
  assert (Hbb : forall x o, heap w !! x = Some o -> x <> b') by congruence.
  assert (Hbb' : forall x o, heap w !! x = Some o -> b' <> x) by congruence.
  repeat split.
  - rewrite !length_app. simpl. lia.
  - rewrite lookup_insert_eq. do 2 f_equal.
    rewrite !length_app, length_map. done.
  - rewrite lookup_insert_ne by congruence.
    rewrite lookup_insert_ne by eauto.
    rewrite lookup_insert_ne by congruence. rewrite lookup_insert_eq.
    by rewrite map_app.
  - intros i x Hi. apply lookup_app_Some in Hi as [Hi|[Hi1 Hi2]].
    + destruct (Hblocks i x Hi) as (vt & dx & th & n & Hx).
      exists vt, dx, th, n.
      rewrite link_app_lt
        by (apply lookup_lt_Some in Hi; lia).
      rewrite lookup_insert_ne by congruence.
      rewrite lookup_insert_ne by eauto.
      rewrite !lookup_insert_ne by congruence.
      by apply (lookup_weaken _ _ _ _ Hx).
    + destruct (i - length blocs)%nat as [|k] eqn:Hk; [|by destruct k].
      injection Hi2 as <-.
      assert (i = length hs) as -> by lia.
      exists q, d, (sha256 (concat_str (signatures ts (entropy w)))), (Some m).
      rewrite link_app_lt by lia.
      rewrite lookup_insert_ne by eauto.
      by rewrite lookup_insert_eq.
  - intros p' Hp'.
    destruct (Hpools p' Hp') as (lp & cp & tsp & Hp0 & Hl0 & Hne0).
    exists lp, cp, tsp.
    repeat (rewrite lookup_insert_ne by first [congruence | eauto]).
    repeat split; try done; by eapply lookup_weaken.
Qed.

(** Every world of the protocol satisfies the invariant. *)
Lemma protocol_chain_inv bc pools w hs :
  protocol bc pools w hs -> chain_inv w bc pools hs.
Proof.
  induction 1.
  - by eapply chain_inv_fresh.
  - by eapply chain_inv_new_pool.
  - by eapply chain_inv_transfer.
  - by eapply chain_inv_clear.
  - by eapply chain_inv_round.
Qed.
End ProtocolFacts.

(** * The claims *)

Section Claims.
Context `{Platform}.

(** C1.  In every world the caller reaches by the protocol (a fresh
    [Blockchain], then rounds of [create_block] followed by
    [mine_last_block], with any pool traffic in between), the chain holds
    as many blocks as minings have returned, in creation order; block 0
    carries the empty string as [previous_hash], and block [i + 1] carries
    the proof hash that mining block [i] returned. *)
Theorem blocks_link_to_previous_proof_hash (bc : loc) (pools : gset loc)
    (w : world) (hs : list string) :
  protocol bc pools w hs ->
  exists blocs,
    linked w bc blocs hs /\
    (forall b, blocs !! 0%nat = Some b ->
       exists vt d th n, heap w !! b = Some (BlockObj vt "" d th n)) /\
    (forall i b digest,
       blocs !! S i = Some b -> hs !! i = Some digest ->
       exists vt d th n, heap w !! b = Some (BlockObj vt digest d th n)).
Proof.
  intros Hp. apply protocol_chain_inv in Hp
    as (lb & blocs & Hlen & Hbc & Hlb & Hblocks & _).
  exists blocs. repeat split; try done.
  - by exists lb.
  - intros b Hb. by apply (Hblocks 0%nat).
  - intros i b digest Hb Hd.
    destruct (Hblocks (S i) b Hb) as (vt & d & th & n & Hh).
    exists vt, d, th, n. simpl in Hh. by rewrite Hd in Hh.
Qed.

(** C4 (amended).  On a chain without blocks, [mine_last_block] fails at
    the list indexing [self.lst[self.count-1]], that is with Python's
    [IndexError], and the world it leaves is the world it got: the
    block list, the counter and the last hash are unchanged. *)
Theorem mine_last_block_empty_chain (fuel : nat) (bc lb : loc)
    (last : string) (w : world) :
  heap w !! bc = Some (BlockchainObj lb 0 last) ->
  heap w !! lb = Some (PyList []) ->
  Blockchain.mine_last_block fuel bc w = Raise IndexError w.
Proof. apply mine_last_block_empty. Qed.

(** C5.  A snapshot of a pool, taken by [__copy__], keeps its
    transaction sequence and its count when the original pool is
    cleared: both calls succeed, the snapshot holds the items and the
    count of the pool before and after [clear], and the original is
    empty. *)
Theorem snapshot_survives_clear (p : loc) (items : list val) (c : Z)
    (w : world) :
  is_pool w p items c ->
  exists q w1 w2,
    Transactions.__copy__ p w = Ok q w1 /\
    Transactions.clear p w1 = Ok tt w2 /\
    q <> p /\
    is_pool w1 q items c /\
    is_pool w2 q items c /\
    is_pool w2 p [] 0.
Proof.
  intros (l & Hp & Hl).
  destruct (copy_pool _ _ _ _ _ Hp Hl)
    as (q & l' & w1 & Hcopy & Hq & Hl' & Hql' & Hq1 & Hl'1 & Hsub & _).
  pose proof (lookup_weaken _ _ _ _ Hp Hsub) as Hp1.
  pose proof (lookup_weaken _ _ _ _ Hl Hsub) as Hl1.
  exists q, w1. eexists. split; [done|].
  split; [by eapply clear_pool|].
  split; [congruence|].
  split; [by exists l'|].
  split.
  - exists l'. simpl. rewrite !lookup_insert_ne by congruence. done.
  - exists l. simpl. rewrite lookup_insert_eq.
    rewrite lookup_insert_ne by congruence. by rewrite lookup_insert_eq.
Qed.

(** C7.  The invariant [count == len(lst)] of a pool holds for a new
    [Transactions()], and each operation on a pool that satisfies it
    succeeds and keeps it: [transfer], [clear], and [__copy__], after
    which both the original and the copy satisfy it. *)
Theorem pool_count_is_length :
  (forall w, exists p w', Transactions.__init__ w = Ok p w' /\ pool_inv w' p) /\
  (forall w p s r v, pool_inv w p ->
     exists w', Transactions.transfer p s r v w = Ok tt w' /\ pool_inv w' p) /\
  (forall w p, pool_inv w p ->
     exists w', Transactions.clear p w = Ok tt w' /\ pool_inv w' p) /\
  (forall w p, pool_inv w p ->
     exists q w', Transactions.__copy__ p w = Ok q w' /\
                  pool_inv w' q /\ pool_inv w' p).
Proof.
  repeat split.
  - intros w. destruct (init_Transactions w) as (l & p & Hl & Hp & Hne & Hinit).
    exists p. eexists. split; [done|]. exists [], l. simpl.
    rewrite lookup_insert_eq, lookup_insert_ne by done.
    by rewrite lookup_insert_eq.
  - intros w p s r v (items & l & Hp & Hl).
    eexists. split; [by eapply transfer_pool|].
    eexists _, l. simpl. rewrite lookup_insert_eq.
    rewrite lookup_insert_ne by congruence. rewrite lookup_insert_eq.
    split; [|done]. rewrite length_app. simpl. do 2 f_equal. lia.
  - intros w p (items & l & Hp & Hl).
    eexists. split; [by eapply clear_pool|].
    exists [], l. simpl. rewrite lookup_insert_eq.
    rewrite lookup_insert_ne by congruence. by rewrite lookup_insert_eq.
  - intros w p (items & l & Hp & Hl).
    destruct (copy_pool _ _ _ _ _ Hp Hl)
      as (q & l' & w1 & Hcopy & Hq & Hl' & Hql' & Hq1 & Hl'1 & Hsub & _).
    exists q, w1. split; [done|]. split.
    + by exists items, l'.
    + exists items, l. split; by eapply lookup_weaken.
Qed.

(** C10.  Mining is deterministic in the header fields.  When [mine]
    has returned [digest], a second call on the same block returns the
    same [digest] and leaves the world as it is, so the nonce it stores
    is the one the first call found.  The second search starts again at
    nonce 0: it needs as much fuel as the first one, and it finds the
    least suitable nonce whatever nonce the block held. *)
Theorem mine_twice_same_nonce (fuel : nat) (self : loc) (digest : string)
    (w w1 : world) :
  Block.mine fuel self w = Ok digest w1 ->
  Block.mine fuel self w1 = Ok digest w1 /\
  exists vt ph d th n,
    heap w1 !! self = Some (BlockObj vt ph d th (Some n)) /\
    0 <= n /\ digest = proof_hash ph d th n /\
    (forall k, 0 <= k < n -> suits ph d th k = false) /\
    (forall fuel', (Z.to_nat n <= fuel')%nat ->
       Block.mine fuel' self w1 = Ok digest w1) /\
    (forall fuel', (fuel' < Z.to_nat n)%nat ->
       Block.mine fuel' self w1 = OutOfFuel).
Proof.
  intros Hrun. pose proof Hrun as Hrun0.
  apply mine_Ok_inv in Hrun as (vt & ph & d & th & n0 & m & Hs & Hm & -> & ->).
  pose proof (mine_Ok_fits _ _ _ _ _ _ _ _ _ _ Hs Hrun0) as Hfit.
  assert (Hs1 : heap (with_heap (<[self := BlockObj vt ph d th (Some m)]> (heap w)) w)
                !! self = Some (BlockObj vt ph d th (Some m)))
    by apply lookup_insert_eq.
  assert (Hagain : forall fuel', search ph d th fuel' 0 = Some m ->
            Block.mine fuel' self
              (with_heap (<[self := BlockObj vt ph d th (Some m)]> (heap w)) w)
            = Ok (proof_hash ph d th m)
                 (with_heap (<[self := BlockObj vt ph d th (Some m)]> (heap w)) w)).
  { intros fuel' Hm'. rewrite (mine_search _ _ _ _ _ _ _ _ Hs1 Hfit), Hm'.
    simpl. by rewrite insert_insert_eq. }
  pose proof (search_Some _ _ _ _ _ _ Hm) as (Hsuits & Hrange & Hleast).
  split; [by apply Hagain|].
  exists vt, ph, d, th, m. repeat split; try done; try lia.
  - intros fuel' Hfuel. apply Hagain.
    apply (search_more_fuel _ _ _ (Z.to_nat (m - 0))); [|lia].
    by eapply search_enough_fuel.
  - intros fuel' Hfuel. rewrite (mine_search _ _ _ _ _ _ _ _ Hs1 Hfit).
    by rewrite (search_short_fuel _ _ _ _ m).
Qed.



(** C2 (amended).  [mine] on a block of difficulty [d >= 0] does not
    terminate for every [d].  When it returns, what it returns is the
    digest at the least suitable nonce: sixty-four hexadecimal digits that
    end in [d] characters [0].  It returns exactly when the string
    ["0" * d] can be built and some nonce from 0 on satisfies the
    difficulty predicate: when a nonce [m] is suitable, [mine] stops at
    the least suitable nonce [n <= m], given fuel for [n] increments.  For
    [d = 0] nonce 0 is suitable and the first candidate is accepted with
    no increment.  For [d > 64] no digest is suitable and [mine] never
    returns: it runs for ever when ["0" * d] can be built, and ends at its
    first check with the error of the multiplication ([OverflowError] from
    [2 ^ 63] on, [MemoryError] beyond the memory of the interpreter) when
    it cannot, the nonce being 0 by then; the error is stated for
    difficulties of at most 640 digits, whose header the interpreter
    renders under any setting. *)
Theorem mine_stops_at_least_suitable_nonce (self vt : loc) (ph : string)
    (d : Z) (th : string) (n0 : option Z) (w : world) :
  heap w !! self = Some (BlockObj vt ph d th n0) ->
  0 <= d ->
  (forall fuel digest w',
     Block.mine fuel self w = Ok digest w' ->
     String.length digest = 64%nat /\ all_chars is_hexdigit digest /\
     (exists prefix, digest = prefix +:+ str_mul "0" d) /\
     zeros_fit d /\
     (exists n, 0 <= n /\ suits ph d th n = true /\
                (forall k, 0 <= k < n -> suits ph d th k = false) /\
                digest = proof_hash ph d th n)) /\
  (zeros_fit d ->
   forall m, 0 <= m -> suits ph d th m = true ->
     exists n, 0 <= n <= m /\ suits ph d th n = true /\
       (forall k, 0 <= k < n -> suits ph d th k = false) /\
       forall fuel, (Z.to_nat n <= fuel)%nat ->
         Block.mine fuel self w
         = Ok (proof_hash ph d th n)
              (with_heap (<[self := BlockObj vt ph d th (Some n)]> (heap w)) w)) /\
  (d = 0 -> forall fuel,
     Block.mine fuel self w
     = Ok (proof_hash ph d th 0)
          (with_heap (<[self := BlockObj vt ph d th (Some 0)]> (heap w)) w)) /\
  (64 < d ->
   (forall fuel digest w', Block.mine fuel self w <> Ok digest w') /\
   (zeros_fit d -> forall fuel, Block.mine fuel self w = OutOfFuel) /\
   (forall e, str_mul_error "0" d = Some e -> str_int_allowed d ->
      forall fuel,
        Block.mine fuel self w
        = Raise e
            (with_heap (<[self := BlockObj vt ph d th (Some 0)]> (heap w)) w)) /\
   (2 ^ 63 <= d -> str_mul_error "0" d = Some OverflowError)).
Proof.
  intros Hs Hd0.
  split; [|split; [|split]].
  - intros fuel digest w' Hrun.
    pose proof (mine_Ok_fits _ _ _ _ _ _ _ _ _ _ Hs Hrun) as Hfit.
    apply mine_Ok_inv in Hrun
      as (vt' & ph' & d' & th' & n0' & m & Hs' & Hm & -> & _).
    rewrite Hs in Hs'. injection Hs' as <- <- <- <- <-.
    apply search_Some in Hm as (Hm & Hrange & Hleast).
    split; [apply length_sha256|]. split; [apply sha256_is_hex|].
    split; [by apply suits_trailing_zeros|]. split; [done|].
    exists m. repeat split; [lia | done | done].
  - intros Hfit m Hm0 Hm.
    destruct (search_reaches ph d th (Z.to_nat m) 0 m Hm) as (n & Hn & Hle);
      [lia|].
    pose proof (search_Some _ _ _ _ _ _ Hn) as (Hsn & Hrange & Hleast).
    exists n. repeat split; try done; try lia.
    intros fuel Hfuel. rewrite (mine_search _ _ _ _ _ _ _ _ Hs Hfit).
    rewrite (search_more_fuel _ _ _ (Z.to_nat (n - 0)) fuel 0 n); [done| |lia].
    by eapply search_enough_fuel.
  - intros -> fuel.
    rewrite (mine_search _ _ _ _ _ _ _ _ Hs) by reflexivity.
    destruct fuel; cbn [search]; by rewrite suits_nonpos.
  - intros Hd. split; [|split; [|split]].
    + intros fuel digest w' Hrun.
      pose proof (mine_Ok_fits _ _ _ _ _ _ _ _ _ _ Hs Hrun) as Hfit.
      rewrite (mine_search _ _ _ _ _ _ _ _ Hs Hfit) in Hrun.
      by rewrite search_above_64 in Hrun.
    + intros Hfit fuel. rewrite (mine_search _ _ _ _ _ _ _ _ Hs Hfit).
      by rewrite search_above_64.
    + intros e He _ fuel. apply (mine_raises _ _ _ _ _ _ _ _ _ Hs He).
    + intros Hbig. apply str_mul_error_overflow. by right.
Qed.


(** C8.  The canonical form of a transaction, the bytes of
    [str(self.to_dict())], is a function of the sender identifier, the
    receiver identifier, the value and the timestamp: two transactions that
    agree on the four have the same bytes, and two transactions with the
    same bytes agree on the four, so that changing any one of them changes
    the canonical form. *)
Theorem canonical_form_determined_by_fields (t1 t2 : transaction) :
  let same :=
    Node.identity (sender t1) = Node.identity (sender t2) /\
    Node.identity (receiver t1) = Node.identity (receiver t2) /\
    value t1 = value t2 /\ timestamp t1 = timestamp t2 in
  (same -> Transaction.canonical_form t1 = Transaction.canonical_form t2) /\
  (Transaction.canonical_form t1 = Transaction.canonical_form t2 -> same) /\
  (~ same -> Transaction.canonical_form t1 <> Transaction.canonical_form t2).
Proof.
  assert (Hinj : Transaction.canonical_form t1 = Transaction.canonical_form t2 ->
                 Node.identity (sender t1) = Node.identity (sender t2) /\
                 Node.identity (receiver t1) = Node.identity (receiver t2) /\
                 value t1 = value t2 /\ timestamp t1 = timestamp t2).
  { intros Heq. by apply str_to_dict_inj, encode_utf8_inj. }
  simpl. repeat split.
  - intros (Hs & Hr & Hv & Ht). unfold Transaction.canonical_form.
    by rewrite !str_to_dict, Hs, Hr, Hv, Ht.
  - by apply Hinj.
  - by apply Hinj.
  - by apply Hinj.
  - by apply Hinj.
  - intros Hdiff Heq. by apply Hdiff, Hinj.
Qed.
End Claims.

(** ** More on text *)

Lemma str_repeat_add (s : string) (a b : nat) :
  str_repeat s (a + b) = str_repeat s a +:+ str_repeat s b.
Proof.
  induction a as [|a IH]; simpl; [done|]. by rewrite IH, str_app_assoc.
Qed.

(** A string that ends in [d] zeros ends in any smaller number of zeros. *)
Lemma endswith_zeros_le (s : string) (d d' : Z) :
  d' <= d -> endswith s (str_mul "0" d) = true ->
  endswith s (str_mul "0" d') = true.
Proof.
  intros Hle Hd. apply endswith_spec in Hd as (p & ->).
  apply endswith_spec.
  destruct (Z.le_gt_cases d' 0) as [Hneg|Hpos].
  - rewrite (str_mul_nonpos _ d') by done.
    exists (p +:+ str_mul "0" d). by rewrite str_app_nil_r.
  - exists (p +:+ str_repeat "0" (Z.to_nat d - Z.to_nat d')).
    unfold str_mul. rewrite str_app_assoc, <- str_repeat_add.
    do 2 f_equal. lia.
Qed.

Lemma byte_to_Z_inj (x y : byte) : byte_to_Z x = byte_to_Z y -> x = y.
Proof.
  unfold byte_to_Z. intros Heq.
  assert (Hn : Byte.to_N x = Byte.to_N y) by lia.
  apply (f_equal Byte.of_N) in Hn. rewrite !Byte.of_to_N in Hn.
  by injection Hn.
Qed.

Lemma ord_hexdigit (n : Z) :
  0 <= n < 16 -> ord (hexdigit n) = if n <? 10 then 48 + n else 87 + n.
Proof.
  intros Hn. unfold hexdigit.
  destruct (Z.ltb_spec n 10); rewrite ord_chr by lia; done.
Qed.

Lemma hexdigit_inj (m n : Z) :
  0 <= m < 16 -> 0 <= n < 16 -> hexdigit m = hexdigit n -> m = n.
Proof.
  intros Hm Hn Heq. apply (f_equal ord) in Heq.
  rewrite !ord_hexdigit in Heq by done.
  destruct (Z.ltb_spec m 10), (Z.ltb_spec n 10); lia.
Qed.

(** [hexlify] loses nothing: the text determines the bytes. *)
Lemma hexlify_inj (b1 b2 : bytes) : hexlify b1 = hexlify b2 -> b1 = b2.
Proof.
  revert b2. induction b1 as [|x b1 IH]; intros [|y b2]; simpl; try done.
  intros Heq. injection Heq as Hhi Hlo Hrest.
  pose proof (byte_to_Z_bounded x) as Hx.
  pose proof (byte_to_Z_bounded y) as Hy.
  assert (Hdx : 0 <= byte_to_Z x / 16 < 16)
    by (split; [apply Z.div_pos; lia | apply Z.div_lt_upper_bound; lia]).
  assert (Hdy : 0 <= byte_to_Z y / 16 < 16)
    by (split; [apply Z.div_pos; lia | apply Z.div_lt_upper_bound; lia]).
  pose proof (Z.mod_pos_bound (byte_to_Z x) 16) as Hmx.
  pose proof (Z.mod_pos_bound (byte_to_Z y) 16) as Hmy.
  apply hexdigit_inj in Hhi; [|lia..].
  apply hexdigit_inj in Hlo; [|lia..].
  f_equal; [|by apply IH].
  apply byte_to_Z_inj.
  rewrite (Z.div_mod (byte_to_Z x) 16), (Z.div_mod (byte_to_Z y) 16) by lia.
  lia.
Qed.

(** ** The text of a block header *)

Lemma not_intchar_brace : ~ is_intchar "}".
Proof. unfold is_intchar. vm_compute. intuition congruence. Qed.

Lemma not_intchar_N : ~ is_intchar "N".
Proof. unfold is_intchar. vm_compute. intuition congruence. Qed.

(** [str(self.header_to_dict())] for hexadecimal hashes, spelled out. *)
Lemma str_header (ph : string) (d : Z) (th : string) (n : option Z) :
  all_chars is_hexdigit ph -> all_chars is_hexdigit th ->
  str_dict (header ph d th n)
  = "{'previous_hash': '" +:+ ph
    +:+ "', 'difficulty': " +:+ str_int d
    +:+ ", 'transaction_hash': '" +:+ th
    +:+ "', 'nonce': " +:+ repr (Block.py_nonce n) +:+ "}".
Proof.
  intros Hph Hth. unfold str_dict, header. simpl map.
  rewrite !join_cons2. unfold repr_item. simpl fst. simpl snd.
  change (repr (PyStr ph)) with (repr_str ph).
  change (repr (PyStr th)) with (repr_str th).
  change (repr (PyInt d)) with (str_int d).
  rewrite (repr_str_hex ph), (repr_str_hex th) by done.
  change (repr_str "previous_hash") with "'previous_hash'".
  change (repr_str "difficulty") with "'difficulty'".
  change (repr_str "transaction_hash") with "'transaction_hash'".
  change (repr_str "nonce") with "'nonce'".
  simpl join. rewrite !str_app_assoc. simpl. rewrite !str_app_assoc. done.
Qed.

Lemma repr_nonce_inj (n n' : option Z) (r r' : string) :
  repr (Block.py_nonce n) +:+ String "}" r
  = repr (Block.py_nonce n') +:+ String "}" r' ->
  n = n'.
Proof.
  destruct n as [n|], n' as [n'|]; simpl; intros Heq.
  - apply str_sep with (P := is_intchar) in Heq as (Hn & _);
      auto using str_int_intchars, not_intchar_brace.
    by apply str_int_inj in Hn as ->.
  - apply (str_sep is_intchar (str_int n) "" "}" "N") in Heq as (_ & Hc & _);
      auto using str_int_intchars, not_intchar_brace, not_intchar_N.
    + discriminate.
    + done.
  - apply (str_sep is_intchar "" (str_int n') "N" "}") in Heq as (_ & Hc & _);
      auto using str_int_intchars, not_intchar_brace, not_intchar_N.
    + discriminate.
    + done.
  - done.
Qed.

(** * Further properties of the code *)

Section Extras.
Context `{Platform}.

(** X1.  The identity of a node is a lossless rendering of its exported
    public key: it is made of lower-case hexadecimal digits, two for each
    byte of the key, and two nodes have the same identity exactly when
    their exported public keys are the same bytes. *)
Theorem identity_lossless (n1 n2 : node) :
  all_chars is_hexdigit (Node.identity n1) /\
  String.length (Node.identity n1)
  = (2 * length (export_key (_public_key n1)))%nat /\
  (Node.identity n1 = Node.identity n2 <->
   export_key (_public_key n1) = export_key (_public_key n2)).
Proof.
  split; [apply hexlify_is_hex|]. split; [apply length_hexlify|].
  unfold Node.identity. split; [apply hexlify_inj | by intros ->].
Qed.

(** X2.  The difficulty predicate is monotone: when [validate_difficulty]
    accepts a text on a block of difficulty [d], it accepts the same text,
    with the same digest, on any block of difficulty [d'] with
    [- 2 ^ 63 <= d' <= d], and it writes nothing.  Below [- 2 ^ 63] the
    multiplication ["0" * d'] raises [OverflowError] and so does the
    call. *)
Theorem validate_difficulty_monotone (self self' vt vt' : loc)
    (ph ph' : string) (d d' : Z) (th th' : string) (n n' : option Z)
    (data digest : string) (w w1 w' : world) :
  heap w !! self = Some (BlockObj vt ph d th n) ->
  heap w' !! self' = Some (BlockObj vt' ph' d' th' n') ->
  d' <= d ->
  Block.validate_difficulty self data w = Ok (digest, true) w1 ->
  w1 = w /\
  (- 2 ^ 63 <= d' ->
   Block.validate_difficulty self' data w' = Ok (digest, true) w') /\
  (d' < - 2 ^ 63 ->
   Block.validate_difficulty self' data w' = Raise OverflowError w').
Proof.
  intros Hs Hs' Hle Hrun.
  assert (Hfit : zeros_fit d).
  { unfold zeros_fit. destruct (str_mul_error "0" d) as [e|] eqn:He; [|done].
    by rewrite (validate_difficulty_raises _ _ _ _ _ _ _ _ _ Hs He) in Hrun. }
  rewrite (validate_difficulty_Block _ _ _ _ _ _ _ _ Hs Hfit) in Hrun.
  injection Hrun as <- Hends <-. split; [done|]. split.
  - intros Hlow.
    rewrite (validate_difficulty_Block _ _ _ _ _ _ _ _ Hs')
      by (apply (zeros_fit_le d); [done | lia]).
    by rewrite (endswith_zeros_le _ d d').
  - intros Hlow. apply (validate_difficulty_raises _ _ _ _ _ _ _ _ _ Hs').
    apply str_mul_error_overflow. by left.
Qed.

(** X3.  The text that is hashed determines the header.  For two blocks
    whose previous hash and transaction hash are hexadecimal (a digest, or
    the empty string of the first block), equal renderings
    [str(header_to_dict())] mean equal previous hash, difficulty,
    transaction hash and nonce: no two headers share a text, and an unset
    nonce is told from every number. *)
Theorem header_text_determines_header (b b' vt vt' : loc) (ph ph' : string)
    (d d' : Z) (th th' : string) (n n' : option Z) (h h' : pydict)
    (w w1 w' w1' : world) :
  heap w !! b = Some (BlockObj vt ph d th n) ->
  heap w' !! b' = Some (BlockObj vt' ph' d' th' n') ->
  all_chars is_hexdigit ph -> all_chars is_hexdigit th ->
  all_chars is_hexdigit ph' -> all_chars is_hexdigit th' ->
  Block.header_to_dict b w = Ok h w1 ->
  Block.header_to_dict b' w' = Ok h' w1' ->
  str_dict h = str_dict h' ->
  ph = ph' /\ d = d' /\ th = th' /\ n = n'.
Proof.
  intros Hb Hb' Hph Hth Hph' Hth' Hh Hh' Heq.
  rewrite (header_to_dict_Block _ _ _ _ _ _ _ Hb) in Hh.
  rewrite (header_to_dict_Block _ _ _ _ _ _ _ Hb') in Hh'.
  injection Hh as <- _. injection Hh' as <- _.
  rewrite !str_header in Heq by done.
  apply str_app_inv_head in Heq. simpl in Heq.
  apply str_sep with (P := is_hexdigit) in Heq as (Hp & _ & Heq);
    auto using not_hexdigit_quote.
  apply (str_app_inv_head ", 'difficulty': ") in Heq.
  apply str_sep with (P := is_intchar) in Heq as (Hd & _ & Heq);
    auto using str_int_intchars, not_intchar_comma.
  apply str_int_inj in Hd.
  apply (str_app_inv_head " 'transaction_hash': '") in Heq.
  apply str_sep with (P := is_hexdigit) in Heq as (Ht & _ & Heq);
    auto using not_hexdigit_quote.
  apply (str_app_inv_head ", 'nonce': ") in Heq.
  apply repr_nonce_inj in Heq. done.
Qed.

(** X4.  [transfer] appends: on a pool that holds [items] with counter
    [c], it succeeds for any sender, receiver and value (no value is
    refused, negative or zero), puts one transaction stamped with the
    current clock reading after the items that were there, adds one to the
    counter, reads the clock once, and writes no other object. *)
Theorem transfer_appends_at_end (p l : loc) (items : list val) (c : Z)
    (s r : node) (v : Z) (w : world) :
  heap w !! p = Some (TransactionsObj l c) ->
  heap w !! l = Some (PyList items) ->
  exists w',
    Transactions.transfer p s r v w = Ok tt w' /\
    heap w' !! p = Some (TransactionsObj l (c + 1)) /\
    heap w' !! l
    = Some (PyList (items ++
              [VTransaction (MkTransaction s r v (wall_clock (ticks w)))])) /\
    (forall x, x <> p -> x <> l -> heap w' !! x = heap w !! x) /\
    ticks w' = S (ticks w) /\ entropy w' = entropy w.
Proof.
  intros Hp Hl. eexists. split; [by eapply transfer_pool|].
  simpl. assert (l <> p) by congruence. repeat split.
  - apply lookup_insert_eq.
  - rewrite lookup_insert_ne by congruence. apply lookup_insert_eq.
  - intros x Hxp Hxl. by rewrite !lookup_insert_ne.
Qed.



(** X7.  [mine_last_block] seals the last block.  On a chain whose list
    ends in block [b] and whose counter is the length of the list: when
    it returns, [b] holds a nonce [n >= 0] whose digest is suitable, that
    digest ends in [d] characters [0] and is the new [last_hash], and
    nothing else has changed (the list, the counter, the other blocks, the
    clock, the random source).  When ["0" * d] can be built it never
    raises, and it does return, given fuel for [m] increments, whenever
    some nonce [m] is suitable.  When ["0" * d] cannot be built it raises
    the error of the multiplication, with the nonce of [b] set to 0 and
    [last_hash] not assigned (stated for difficulties of at most 640
    digits, whose header the interpreter renders under any setting). *)
Theorem mine_last_block_seals_last_block (bc lb b vt : loc) (last : string)
    (items : list val) (ph : string) (d : Z) (th : string) (n0 : option Z)
    (w : world) :
  heap w !! bc
  = Some (BlockchainObj lb (Z.of_nat (length (items ++ [VRef b]))) last) ->
  heap w !! lb = Some (PyList (items ++ [VRef b])) ->
  heap w !! b = Some (BlockObj vt ph d th n0) ->
  (forall fuel w',
     Blockchain.mine_last_block fuel bc w = Ok tt w' ->
     exists n,
       0 <= n /\ suits ph d th n = true /\
       (exists prefix, proof_hash ph d th n = prefix +:+ str_mul "0" d) /\
       heap w'
       = <[bc := BlockchainObj lb (Z.of_nat (length (items ++ [VRef b])))
                   (proof_hash ph d th n)]>
           (<[b := BlockObj vt ph d th (Some n)]> (heap w)) /\
       ticks w' = ticks w /\ entropy w' = entropy w) /\
  (zeros_fit d ->
   (forall fuel e w', Blockchain.mine_last_block fuel bc w <> Raise e w') /\
   (forall m, 0 <= m -> suits ph d th m = true ->
      exists w', Blockchain.mine_last_block (Z.to_nat m) bc w = Ok tt w')) /\
  (forall e, str_mul_error "0" d = Some e -> str_int_allowed d ->
     forall fuel,
       Blockchain.mine_last_block fuel bc w
       = Raise e (with_heap (<[b := BlockObj vt ph d th (Some 0)]> (heap w)) w)).
Proof.
  intros Hbc Hlb Hb. split; [|split].
  - intros fuel w' Hrun.
    pose proof (mine_last_block_Ok_fits _ _ _ _ _ _ _ _ _ _ _ _ _
                  Hbc Hlb Hb Hrun) as Hfit.
    rewrite (mine_last_block_chain _ _ _ _ _ _ _ _ _ _ _ _ Hbc Hlb Hb Hfit)
      in Hrun.
    destruct (search ph d th fuel 0) as [n|] eqn:Hn; [|done].
    injection Hrun as <-. apply search_Some in Hn as (Hsuits & Hrange & _).
    exists n. repeat split; try done; try lia.
    by apply suits_trailing_zeros.
  - intros Hfit. split.
    + intros fuel e w'.
      rewrite (mine_last_block_chain _ _ _ _ _ _ _ _ _ _ _ _ Hbc Hlb Hb Hfit).
      by destruct (search ph d th fuel 0).
    + intros m Hm Hsuits.
      rewrite (mine_last_block_chain _ _ _ _ _ _ _ _ _ _ _ _ Hbc Hlb Hb Hfit).
      destruct (search_reaches ph d th (Z.to_nat m) 0 m Hsuits)
        as (n & -> & _); [lia|]. by eexists.
  - intros e He _ fuel.
    apply (mine_last_block_raises _ _ _ _ _ _ _ _ _ _ _ _ _ Hbc Hlb Hb He).
Qed.

(** X8.  Mining the last block again changes nothing: after
    [mine_last_block] has returned, a second call with the same fuel
    returns and leaves the world exactly as the first call left it. *)
Theorem mine_last_block_twice (fuel : nat) (bc lb b vt : loc) (last : string)
    (items : list val) (ph : string) (d : Z) (th : string) (n0 : option Z)
    (w w' : world) :
  heap w !! bc
  = Some (BlockchainObj lb (Z.of_nat (length (items ++ [VRef b]))) last) ->
  heap w !! lb = Some (PyList (items ++ [VRef b])) ->
  heap w !! b = Some (BlockObj vt ph d th n0) ->
  Blockchain.mine_last_block fuel bc w = Ok tt w' ->
  Blockchain.mine_last_block fuel bc w' = Ok tt w'.
Proof.
  intros Hbc Hlb Hb Hrun.
  pose proof (mine_last_block_Ok_fits _ _ _ _ _ _ _ _ _ _ _ _ _
                Hbc Hlb Hb Hrun) as Hfit.
  revert Hrun.
  rewrite (mine_last_block_chain _ _ _ _ _ _ _ _ _ _ _ _ Hbc Hlb Hb Hfit).
  destruct (search ph d th fuel 0) as [n|] eqn:Hn; [|done].
  intros [= <-].
  assert (Hbcb : bc <> b) by congruence.
  assert (Hlbb : lb <> b) by congruence.
  assert (Hlbbc : lb <> bc) by congruence.
  set (w1 := with_heap _ w).
  assert (Hbc1 : heap w1 !! bc
                 = Some (BlockchainObj lb (Z.of_nat (length (items ++ [VRef b])))
                           (proof_hash ph d th n)))
    by apply lookup_insert_eq.
  assert (Hlb1 : heap w1 !! lb = Some (PyList (items ++ [VRef b]))).
  { simpl. by rewrite !lookup_insert_ne by done. }
  assert (Hb1 : heap w1 !! b = Some (BlockObj vt ph d th (Some n))).
  { simpl. rewrite lookup_insert_ne by done. apply lookup_insert_eq. }
  rewrite (mine_last_block_chain _ _ _ _ _ _ _ _ _ _ _ _ Hbc1 Hlb1 Hb1 Hfit), Hn.
  f_equal. subst w1. unfold with_heap. simpl. f_equal.
  rewrite (insert_id _ b) by (rewrite lookup_insert_ne by done;
                              apply lookup_insert_eq).
  by rewrite insert_insert_eq.
Qed.


Lemma signatures_deterministic (ts : list transaction) :
  deterministic_signing -> forall r r', signatures ts r = signatures ts r'.
Proof.
  intros Hdet. induction ts as [|t ts IH]; intros r r'; simpl; [done|].
  f_equal; [|apply IH]. unfold signature. by rewrite (Hdet _ _ r r').
Qed.

(** X10.  With a deterministic signer the transaction hash of a block can
    be recomputed at any time.  Whenever a block stores the hash of the
    signatures of the transactions its snapshot holds,
    [compute_transaction_hash] on the block returns the stored hash again,
    whatever the state of the random source, and writes no object. *)
Theorem transaction_hash_reproducible (b vt l : loc) (ph : string) (d : Z)
    (n : option Z) (c : Z) (ts : list transaction) (r0 : Entropy) (w : world) :
  deterministic_signing ->
  heap w !! b
  = Some (BlockObj vt ph d (sha256 (concat_str (signatures ts r0))) n) ->
  heap w !! vt = Some (TransactionsObj l c) ->
  heap w !! l = Some (PyList (map VTransaction ts)) ->
  exists w',
    Block.compute_transaction_hash b w
    = Ok (sha256 (concat_str (signatures ts r0))) w' /\
    heap w' = heap w /\ ticks w' = ticks w.
Proof.
  intros Hdet Hb Hvt Hl.
  rewrite (compute_transaction_hash_eq _ _ _ _ _ _ _ _ _ _ Hb Hvt Hl).
  rewrite (signatures_deterministic ts Hdet (entropy w) r0).
  by eexists.
Qed.
End Extras.

(** ** The protocol keeps the chain checkable *)

Section ValidFacts.
Context `{Platform}.

(** A world that agrees with [w] on the chain object, on the blocks and on
    the list of the chain holds the same valid chain. *)
Lemma chain_valid_frame w w' bc blocs hs :
  chain_valid w bc blocs hs ->
  (forall x o, heap w !! x = Some o ->
     match o with
     | BlockchainObj _ _ _ | BlockObj _ _ _ _ _ => heap w' !! x = Some o
     | _ => True
     end) ->
  (forall lb cnt last, heap w !! bc = Some (BlockchainObj lb cnt last) ->
     heap w' !! lb = heap w !! lb) ->
  chain_valid w' bc blocs hs.
Proof.
  intros (Hnd & Hlen & (lb & Hbc & Hlb) & Hblocks) Hkeep Hlist.
  repeat split; try done.
  - exists lb. split; [apply (Hkeep _ _ Hbc)|].
    by rewrite (Hlist _ _ _ Hbc).
  - intros i b Hi. destruct (Hblocks i b Hi) as (vt & d & th & n & Hb & Hrest).
    exists vt, d, th, n. split; [apply (Hkeep _ _ Hb) | done].
Qed.

Lemma map_VRef_inj (l1 l2 : list loc) : map VRef l1 = map VRef l2 -> l1 = l2.
Proof.
  revert l2. induction l1 as [|a l1 IH]; intros [|b l2]; simpl; try done.
  intros [= -> Hrest]. f_equal. by apply IH.
Qed.

(** Writing a pool of the caller and its list keeps the chain valid. *)
Lemma chain_valid_pool_write bc pools w hs blocs p l c c' xs t e :
  chain_inv w bc pools hs ->
  chain_valid w bc blocs hs ->
  p ∈ pools ->
  heap w !! p = Some (TransactionsObj l c) ->
  chain_valid
    (World (<[p := TransactionsObj l c']> (<[l := PyList xs]> (heap w))) t e)
    bc blocs hs.
Proof.
  intros (lb & blocs' & _ & Hbc & Hlb & _ & Hpools) Hvalid Hin Hp.
  destruct (Hpools p Hin) as (l0 & c0 & ts & Hp0 & Hl & Hne).
  rewrite Hp in Hp0. injection Hp0 as <- <-.
  apply (chain_valid_frame w); [done| |].
  - intros x o Hx. destruct o as [items| | |]; try done; simpl;
      by rewrite !lookup_insert_ne by congruence.
  - intros lb' cnt last Hbc'. rewrite Hbc in Hbc'. injection Hbc' as <- _ _.
    simpl. by rewrite !lookup_insert_ne by congruence.
Qed.

Lemma chain_valid_new_pool bc w hs blocs p w' :
  chain_valid w bc blocs hs ->
  Transactions.__init__ w = Ok p w' ->
  chain_valid w' bc blocs hs.
Proof.
  intros Hvalid Hinit.
  destruct (init_Transactions w) as (l & p' & Hl & Hp & Hne & Hinit').
  rewrite Hinit' in Hinit. injection Hinit as -> <-.
  pose proof Hvalid as (_ & _ & (lb & Hbc & Hlb) & _).
  apply (chain_valid_frame w); [done| |].
  - intros x o Hx. destruct o as [items| | |]; try done; simpl;
      by rewrite !lookup_insert_ne by congruence.
  - intros lb' cnt last Hbc'. rewrite Hbc in Hbc'. injection Hbc' as <- _ _.
    simpl. by rewrite !lookup_insert_ne by congruence.
Qed.

Lemma chain_valid_round bc pools w hs blocs p d fuel w1 b digest wm w2 :
  chain_inv w bc pools hs ->
  chain_valid w bc blocs hs ->
  p ∈ pools ->
  Blockchain.create_block bc p d w = Ok tt w1 ->
  last_block w1 bc = Some b ->
  Block.mine fuel b w1 = Ok digest wm ->
  Blockchain.mine_last_block fuel bc w1 = Ok tt w2 ->
  chain_valid w2 bc (blocs ++ [b]) (hs ++ [digest]).
Proof.
  intros (lb' & blocs' & _ & Hbc' & _ & _ & Hpools)
    (Hnd & Hlen & (lb & Hbc & Hlb) & Hblocks) Hin Hcreate Hlast Hmine Hmlb.
  clear Hbc'.
  destruct (Hpools p Hin) as (l & c & ts & Hp & Hl & _).
  destruct (create_block_chain _ _ _ _ _ _ _ _ _ d _ Hbc Hlb Hp Hl)
    as (b' & q & l' & wi & _ & Hb' & Hq & Hl' & Hsub & Hbi & Hqi & Hl'i & Hrun).
  rewrite Hrun in Hcreate. injection Hcreate as <-.
  pose proof (lookup_weaken _ _ _ _ Hbc Hsub) as Hbci.
  pose proof (lookup_weaken _ _ _ _ Hlb Hsub) as Hlbi.
  set (w1 := with_heap _ wi) in *.
  assert (Hne1 : lb <> bc) by congruence.
  assert (Hbc1 : heap w1 !! bc
                 = Some (BlockchainObj lb
                           (Z.of_nat (length (map VRef blocs ++ [VRef b'])))
                           (link hs (length hs)))).
  { simpl. rewrite lookup_insert_eq. do 2 f_equal.
    rewrite length_app, length_map. simpl. lia. }
  assert (Hlb1 : heap w1 !! lb = Some (PyList (map VRef blocs ++ [VRef b']))).
  { simpl. rewrite lookup_insert_ne by done. apply lookup_insert_eq. }
  assert (Hb1 : heap w1 !! b'
                = Some (BlockObj q (link hs (length hs)) d
                          (sha256 (concat_str (signatures ts (entropy w)))) None)).
  { simpl. by rewrite !lookup_insert_ne by congruence. }
  assert (b = b') as ->.
  { unfold last_block in Hlast. rewrite Hbc1, Hlb1, py_index_last in Hlast.
    by injection Hlast. }
  pose proof (mine_Ok_fits _ _ _ _ _ _ _ _ _ _ Hb1 Hmine) as Hfit.
  rewrite (mine_search _ _ _ _ _ _ _ _ Hb1 Hfit) in Hmine.
  rewrite (mine_last_block_chain _ _ _ _ _ _ _ _ _ _ _ _ Hbc1 Hlb1 Hb1 Hfit)
    in Hmlb.
  destruct (search _ _ _ fuel 0) as [m|] eqn:Hsearch; [|done].
  injection Hmine as <- _. injection Hmlb as <-.
  destruct (search_Some _ _ _ _ _ _ Hsearch) as (Hsuits & Hm & _).
  assert (Hbb : forall x o, heap w !! x = Some o -> x <> b') by congruence.
  assert (Hbb' : forall x o, heap w !! x = Some o -> b' <> x) by congruence.
  repeat split.
  - apply NoDup_app. repeat split; [done| |apply NoDup_singleton].
    intros x Hx ->%list_elem_of_singleton.
    apply list_elem_of_lookup in Hx as [i Hi].
    destruct (Hblocks i b' Hi) as (? & ? & ? & ? & Hx & _). congruence.
  - rewrite !length_app. simpl. lia.
  - exists lb. simpl. rewrite link_app_last. split.
    + rewrite lookup_insert_eq. do 2 f_equal.
      rewrite !length_app, length_map. done.
    + rewrite lookup_insert_ne by congruence.
      rewrite lookup_insert_ne by eauto.
      rewrite lookup_insert_ne by congruence. rewrite lookup_insert_eq.
      by rewrite map_app.
  - intros i x Hi. apply lookup_app_Some in Hi as [Hi|[Hi1 Hi2]].
    + destruct (Hblocks i x Hi) as (vt & dx & th & n & Hx & Hn & Hs & Hh).
      exists vt, dx, th, n.
      rewrite link_app_lt
        by (apply lookup_lt_Some in Hi; lia).
      repeat split; try done.
      * simpl. rewrite lookup_insert_ne by congruence.
        rewrite lookup_insert_ne by eauto.
        rewrite !lookup_insert_ne by congruence.
        by apply (lookup_weaken _ _ _ _ Hx).
      * by apply lookup_app_l_Some.
    + destruct (i - length blocs)%nat as [|k] eqn:Hk; [|by destruct k].
      injection Hi2 as <-.
      assert (i = length hs) as -> by lia.
      exists q, d, (sha256 (concat_str (signatures ts (entropy w)))), m.
      rewrite link_app_lt by lia.
      repeat split; try done; try lia.
      * simpl. rewrite lookup_insert_ne by eauto.
        by rewrite lookup_insert_eq.
      * rewrite lookup_app_r by lia. by rewrite Nat.sub_diag.
Qed.

Lemma chain_valid_fresh w0 bc w :
  Blockchain.__init__ w0 = Ok bc w -> chain_valid w bc [] [].
Proof.
  intros Hinit.
  destruct (init_Blockchain w0) as (lb & bc' & Hlb & Hbc & Hne & Hrun).
  rewrite Hrun in Hinit. injection Hinit as -> <-.
  repeat split; [apply NoDup_nil_2| |by intros i b Hi].
  exists lb. simpl. split.
  - by rewrite lookup_insert_eq.
  - rewrite lookup_insert_ne by done. by rewrite lookup_insert_eq.
Qed.

(** X11. Along every run of the protocol the chain stays checkable: its
    blocks are distinct objects, every block is mined, the header of block
    [i] at its stored nonce hashes to the [i]-th returned proof hash, which
    ends in the zeros of the block's difficulty, and block [i + 1] carries
    that hash as its [previous_hash]; [last_hash] is the latest one. *)
Theorem protocol_keeps_chain_valid bc pools w hs :
  protocol bc pools w hs -> exists blocs, chain_valid w bc blocs hs.
Proof.
  induction 1 as [pools w0 w Hpools Hinit
                 |pools w w' hs p Hprot IH Hinit
                 |pools w w' hs p s r v Hprot IH Hin Hrun
                 |pools w w' hs p Hprot IH Hin Hrun
                 |pools w w1 wm w2 hs p b d fuel digest Hprot IH Hin
                    Hcreate Hlast Hmine Hmlb].
  - exists []. by eapply chain_valid_fresh.
  - destruct IH as [blocs IH]. exists blocs. by eapply chain_valid_new_pool.
  - destruct IH as [blocs IH]. exists blocs.
    pose proof (protocol_chain_inv _ _ _ _ Hprot) as Hinv.
    pose proof Hinv as (lb & blocs' & _ & _ & _ & _ & Hpools).
    destruct (Hpools p Hin) as (l & c & ts & Hp & Hl & _).
    rewrite (transfer_pool _ _ _ _ s r v _ Hp Hl) in Hrun.
    injection Hrun as <-. by eapply chain_valid_pool_write.
  - destruct IH as [blocs IH]. exists blocs.
    pose proof (protocol_chain_inv _ _ _ _ Hprot) as Hinv.
    pose proof Hinv as (lb & blocs' & _ & _ & _ & _ & Hpools).
    destruct (Hpools p Hin) as (l & c & ts & Hp & Hl & _).
    rewrite (clear_pool _ _ _ _ _ Hp Hl) in Hrun.
    injection Hrun as <-. by eapply chain_valid_pool_write.
  - destruct IH as [blocs IH]. exists (blocs ++ [b]).
    pose proof (protocol_chain_inv _ _ _ _ Hprot) as Hinv.
    by eapply chain_valid_round.
Qed.

End ValidFacts.

(** ** Difficulties out of range *)

Section Range.
Context `{Platform}.

(** X12.  A difficulty of zero or less asks for nothing.  From
    [- 2 ^ 63] to 0, ["0" * d] is the empty string, which every digest
    ends with, so [mine] stops at nonce 0 without one increment, whatever
    the header, and returns the digest of the header at nonce 0.  Below
    [- 2 ^ 63] the multiplication raises [OverflowError], and so does
    [mine], at its first check, the nonce being 0 by then (stated for
    difficulties of at most 640 digits, whose header the interpreter
    renders under any setting). *)
Theorem mine_nonpositive_difficulty_stops_at_zero (fuel : nat) (self vt : loc)
    (ph : string) (d : Z) (th : string) (n0 : option Z) (w : world) :
  heap w !! self = Some (BlockObj vt ph d th n0) ->
  d <= 0 ->
  (- 2 ^ 63 <= d ->
   Block.mine fuel self w
   = Ok (sha256 (str_dict (header ph d th (Some 0))))
        (with_heap (<[self := BlockObj vt ph d th (Some 0)]> (heap w)) w)) /\
  (d < - 2 ^ 63 -> str_int_allowed d ->
   Block.mine fuel self w
   = Raise OverflowError
       (with_heap (<[self := BlockObj vt ph d th (Some 0)]> (heap w)) w)).
Proof.
  intros Hs Hd. split.
  - intros Hlow.
    rewrite (mine_search _ _ _ _ _ _ _ _ Hs) by (apply zeros_fit_nonpos; lia).
    assert (Hz : search ph d th fuel 0 = Some 0)
      by (destruct fuel; simpl; by rewrite suits_nonpos).
    by rewrite Hz.
  - intros Hlow _. apply (mine_raises _ _ _ _ _ _ _ _ _ Hs).
    apply str_mul_error_overflow. by left.
Qed.

(** X13.  A difficulty above 64 is never met: a digest has sixty-four
    characters, so no nonce is suitable and [mine] never returns.  When
    ["0" * d] can be built it neither returns nor raises however long it
    runs, and the same holds for [mine_last_block] on a chain whose last
    block has such a difficulty.  When ["0" * d] cannot be built, which is
    so from [2 ^ 63] on ([OverflowError]) and beyond the memory of the
    interpreter ([MemoryError]), [mine] raises that error at its first
    check (stated for difficulties of at most 640 digits, whose header the
    interpreter renders under any setting). *)
Theorem mine_difficulty_above_64_never_returns (self vt : loc) (ph : string)
    (d : Z) (th : string) (n0 : option Z) (w : world) :
  heap w !! self = Some (BlockObj vt ph d th n0) ->
  64 < d ->
  (forall n, suits ph d th n = false) /\
  (forall fuel digest w', Block.mine fuel self w <> Ok digest w') /\
  (zeros_fit d ->
   (forall fuel, Block.mine fuel self w = OutOfFuel) /\
   (forall fuel bc lb last items,
      heap w !! bc
      = Some (BlockchainObj lb (Z.of_nat (length (items ++ [VRef self]))) last) ->
      heap w !! lb = Some (PyList (items ++ [VRef self])) ->
      Blockchain.mine_last_block fuel bc w = OutOfFuel)) /\
  (forall e, str_mul_error "0" d = Some e -> str_int_allowed d ->
     forall fuel,
       Block.mine fuel self w
       = Raise e
           (with_heap (<[self := BlockObj vt ph d th (Some 0)]> (heap w)) w)) /\
  (2 ^ 63 <= d -> str_mul_error "0" d = Some OverflowError) /\
  (str_capacity < d < 2 ^ 63 -> str_mul_error "0" d = Some MemoryError).
Proof.
  intros Hs Hd. split; [intros n; by apply suits_above_64|].
  split; [|split; [|split; [|split]]].
  - intros fuel digest w' Hrun.
    pose proof (mine_Ok_fits _ _ _ _ _ _ _ _ _ _ Hs Hrun) as Hfit.
    rewrite (mine_search _ _ _ _ _ _ _ _ Hs Hfit) in Hrun.
    by rewrite search_above_64 in Hrun.
  - intros Hfit. split.
    + intros fuel. rewrite (mine_search _ _ _ _ _ _ _ _ Hs Hfit).
      by rewrite search_above_64.
    + intros fuel bc lb last items Hbc Hlb.
      rewrite (mine_last_block_chain _ _ _ _ _ _ _ _ _ _ _ _ Hbc Hlb Hs Hfit).
      by rewrite search_above_64.
  - intros e He _ fuel. apply (mine_raises _ _ _ _ _ _ _ _ _ Hs He).
  - intros Hbig. apply str_mul_error_overflow. by right.
  - intros Hmem. destruct (str_mul_error "0" d) as [e|] eqn:He.
    + revert He. unfold str_mul_error, maxsize.
      change (Z.of_nat (String.length "0")) with 1.
      destruct (Z.ltb_spec d (- (2 ^ 63 - 1) - 1)); [lia|].
      destruct (Z.ltb_spec (2 ^ 63 - 1) d); [lia|]. simpl.
      destruct (Z.ltb_spec d 2); [lia|].
      assert (Hdiv : 1 <= (2 ^ 63 - 1) / d)
        by (apply Z.div_le_lower_bound; lia).
      destruct (Z.ltb_spec ((2 ^ 63 - 1) / d) 1); [lia|].
      destruct (Z.ltb_spec 0 (d * 1)); [|lia].
      destruct (Z.ltb_spec str_capacity (d * 1)); [|lia].
      simpl. by intros [= <-].
    + apply zeros_fit_spec in He. lia.
Qed.

End Range.

(** ** Blocks are final *)

Section Final.
Context `{Platform}.

(** X15.  No operation of the protocol rewrites a block that exists
    already.  From any state the protocol reaches, a [Block] object keeps
    its snapshot, previous hash, difficulty, transaction hash and nonce
    through [transfer] and [clear] on a pool, through the creation of a
    pool, and through a round of [create_block] and [mine_last_block]: the
    round appends a new block and mines that one only. *)
Theorem existing_blocks_are_final (bc : loc) (pools : gset loc) (w : world)
    (hs : list string) (b : loc) (o : obj) :
  protocol bc pools w hs ->
  heap w !! b = Some o ->
  (exists vt ph d th n, o = BlockObj vt ph d th n) ->
  (forall p s r v w', p ∈ pools ->
     Transactions.transfer p s r v w = Ok tt w' -> heap w' !! b = Some o) /\
  (forall p w', p ∈ pools ->
     Transactions.clear p w = Ok tt w' -> heap w' !! b = Some o) /\
  (forall p w', Transactions.__init__ w = Ok p w' -> heap w' !! b = Some o) /\
  (forall p d fuel w1 w2, p ∈ pools ->
     Blockchain.create_block bc p d w = Ok tt w1 ->
     Blockchain.mine_last_block fuel bc w1 = Ok tt w2 ->
     heap w1 !! b = Some o /\ heap w2 !! b = Some o).
Proof.
  intros Hprot Hb (vt0 & ph0 & d0 & th0 & n0 & ->).
  pose proof (protocol_chain_inv _ _ _ _ Hprot)
    as (lb & blocs & Hlen & Hbc & Hlb & Hblocks & Hpools).
  split; [|split; [|split]].
  - intros p s r v w' Hin Hrun.
    destruct (Hpools p Hin) as (l & c & ts & Hp & Hl & _).
    rewrite (transfer_pool _ _ _ _ s r v _ Hp Hl) in Hrun.
    injection Hrun as <-. simpl. by rewrite !lookup_insert_ne by congruence.
  - intros p w' Hin Hrun.
    destruct (Hpools p Hin) as (l & c & ts & Hp & Hl & _).
    rewrite (clear_pool _ _ _ _ _ Hp Hl) in Hrun.
    injection Hrun as <-. simpl. by rewrite !lookup_insert_ne by congruence.
  - intros p w' Hrun.
    destruct (init_Transactions w) as (l & p' & Hl & Hp & Hne & Hinit).
    rewrite Hinit in Hrun. injection Hrun as -> <-. simpl.
    by rewrite !lookup_insert_ne by congruence.
  - intros p d fuel w1 w2 Hin Hcreate Hmlb.
    destruct (Hpools p Hin) as (l & c & ts & Hp & Hl & _).
    destruct (create_block_chain _ _ _ _ _ _ _ _ _ d _ Hbc Hlb Hp Hl)
      as (b' & q & l' & wi & _ & Hb' & _ & _ & Hsub & Hbi & _ & _ & Hrun).
    rewrite Hrun in Hcreate. injection Hcreate as <-.
    set (w1 := with_heap _ wi) in *.
    assert (Hne1 : lb <> bc) by congruence.
    assert (Hw1 : heap w1 !! b = Some (BlockObj vt0 ph0 d0 th0 n0)).
    { simpl. rewrite !lookup_insert_ne by congruence. by eapply lookup_weaken. }
    split; [done|].
    assert (Hbc1 : heap w1 !! bc
                   = Some (BlockchainObj lb
                             (Z.of_nat (length (map VRef blocs ++ [VRef b'])))
                             (link hs (length hs)))).
    { simpl. rewrite lookup_insert_eq. do 2 f_equal.
      rewrite length_app, length_map. simpl. lia. }
    assert (Hlb1 : heap w1 !! lb = Some (PyList (map VRef blocs ++ [VRef b']))).
    { simpl. rewrite lookup_insert_ne by done. apply lookup_insert_eq. }
    assert (Hb1 : heap w1 !! b'
                  = Some (BlockObj q (link hs (length hs)) d
                            (sha256 (concat_str (signatures ts (entropy w)))) None)).
    { simpl. by rewrite !lookup_insert_ne by congruence. }
    pose proof (mine_last_block_Ok_fits _ _ _ _ _ _ _ _ _ _ _ _ _
                  Hbc1 Hlb1 Hb1 Hmlb) as Hfit.
    rewrite (mine_last_block_chain _ _ _ _ _ _ _ _ _ _ _ _ Hbc1 Hlb1 Hb1 Hfit)
      in Hmlb.
    destruct (search _ _ _ fuel 0) as [m|]; [|done].
    injection Hmlb as <-.
    cbn [heap with_heap]. rewrite lookup_insert_ne by congruence.
    rewrite lookup_insert_ne by congruence. exact Hw1.
Qed.

End Final.

(** ** Transaction hashes stay checkable *)

Section Checkable.
Context `{Platform}.

Lemma block_checkable_pool_write pools w b p0 l0 c c' xs ys t e :
  p0 ∈ pools ->
  heap w !! p0 = Some (TransactionsObj l0 c) ->
  heap w !! l0 = Some (PyList ys) ->
  block_checkable w pools b ->
  block_checkable
    (World (<[p0 := TransactionsObj l0 c']> (<[l0 := PyList xs]> (heap w))) t e)
    pools b.
Proof.
  intros Hin Hp0 Hl0 (vt & l & cv & ts & ph & d & n & r0
                      & Hb & Hvt & Hl & Hnotin & Hlists).
  assert (Hvp : p0 <> vt) by (intros ->; done).
  assert (Hll : l0 <> l) by (by eapply Hlists).
  exists vt, l, cv, ts, ph, d, n, r0. simpl.
  split; [by rewrite !lookup_insert_ne by congruence|].
  split; [by rewrite !lookup_insert_ne by congruence|].
  split; [by rewrite !lookup_insert_ne by congruence|].
  split; [done|].
  intros p lp cp Hp Hlook.
  destruct (decide (p = p0)) as [->|Hne].
  - rewrite lookup_insert_eq in Hlook. by injection Hlook as <- _.
  - rewrite lookup_insert_ne in Hlook by done.
    destruct (decide (p = l0)) as [->|Hne'].
    + by rewrite lookup_insert_eq in Hlook.
    + rewrite lookup_insert_ne in Hlook by done. by eapply Hlists.
Qed.

Lemma block_checkable_new_pool pools w b p w' :
  Transactions.__init__ w = Ok p w' ->
  block_checkable w pools b ->
  block_checkable w' ({[p]} ∪ pools) b.
Proof.
  intros Hinit (vt & l & cv & ts & ph & d & n & r0
                & Hb & Hvt & Hl & Hnotin & Hlists).
  destruct (init_Transactions w) as (l0 & p' & Hl0 & Hp' & Hne & Hinit').
  rewrite Hinit' in Hinit. injection Hinit as -> <-.
  exists vt, l, cv, ts, ph, d, n, r0. simpl.
  split; [by rewrite !lookup_insert_ne by congruence|].
  split; [by rewrite !lookup_insert_ne by congruence|].
  split; [by rewrite !lookup_insert_ne by congruence|].
  split.
  - intros [Hin|Hin]%elem_of_union; [|done].
    apply elem_of_singleton in Hin. congruence.
  - intros q lq cq Hq Hlook. apply elem_of_union in Hq as [Hq|Hq].
    + apply elem_of_singleton in Hq as ->.
      rewrite lookup_insert_eq in Hlook. injection Hlook as <- _. congruence.
    + destruct (decide (q = p)) as [->|Hqp].
      * rewrite lookup_insert_eq in Hlook. injection Hlook as <- _. congruence.
      * rewrite lookup_insert_ne in Hlook by done.
        destruct (decide (q = l0)) as [->|Hql].
        -- by rewrite lookup_insert_eq in Hlook.
        -- rewrite lookup_insert_ne in Hlook by done. by eapply Hlists.
Qed.

Lemma chain_checkable_round bc pools w hs p d fuel w1 w2 :
  chain_inv w bc pools hs ->
  chain_checkable w bc pools ->
  p ∈ pools ->
  Blockchain.create_block bc p d w = Ok tt w1 ->
  Blockchain.mine_last_block fuel bc w1 = Ok tt w2 ->
  chain_checkable w2 bc pools.
Proof.
  intros (lb & blocs & _ & Hbc & Hlb & _ & Hpools) Hcheck Hin Hcreate Hmlb.
  destruct (Hpools p Hin) as (l & c & ts & Hp & Hl & _).
  destruct (create_block_chain _ _ _ _ _ _ _ _ _ d _ Hbc Hlb Hp Hl)
    as (b' & q & l' & wi & _ & Hb' & Hq & Hl' & Hsub & Hbi & Hqi & Hl'i & Hrun).
  rewrite Hrun in Hcreate. injection Hcreate as <-.
  set (w1 := with_heap _ wi) in *.
  assert (Hne1 : lb <> bc) by congruence.
  assert (Hbc1 : heap w1 !! bc
                 = Some (BlockchainObj lb
                           (Z.of_nat (length (map VRef blocs ++ [VRef b'])))
                           (link hs (length hs)))).
  { simpl. rewrite lookup_insert_eq. do 2 f_equal.
    rewrite length_app, length_map. simpl. lia. }
  assert (Hlb1 : heap w1 !! lb = Some (PyList (map VRef blocs ++ [VRef b']))).
  { simpl. rewrite lookup_insert_ne by done. apply lookup_insert_eq. }
  assert (Hb1 : heap w1 !! b'
                = Some (BlockObj q (link hs (length hs)) d
                          (sha256 (concat_str (signatures ts (entropy w)))) None)).
  { simpl. by rewrite !lookup_insert_ne by congruence. }
  pose proof (mine_last_block_Ok_fits _ _ _ _ _ _ _ _ _ _ _ _ _
                Hbc1 Hlb1 Hb1 Hmlb) as Hfit.
  rewrite (mine_last_block_chain _ _ _ _ _ _ _ _ _ _ _ _ Hbc1 Hlb1 Hb1 Hfit)
    in Hmlb.
  destruct (search _ _ _ fuel 0) as [m|]; [|done].
  injection Hmlb as <-.
  assert (Hold : forall x o, heap w !! x = Some o ->
            x <> bc -> x <> lb ->
            heap (with_heap
              (<[bc := BlockchainObj lb
                         (Z.of_nat (length (map VRef blocs ++ [VRef b'])))
                         (proof_hash (link hs (length hs)) d
                            (sha256 (concat_str (signatures ts (entropy w)))) m)]>
                 (<[b' := BlockObj q (link hs (length hs)) d
                            (sha256 (concat_str (signatures ts (entropy w))))
                            (Some m)]> (heap w1))) w1) !! x = Some o).
  { intros x o Hx Hxbc Hxlb. simpl.
    rewrite lookup_insert_ne by done.
    rewrite lookup_insert_ne by congruence.
    rewrite !lookup_insert_ne by done. by eapply lookup_weaken. }
  assert (Hpool2 : forall x lx cx, x ∈ pools ->
            heap (with_heap
              (<[bc := BlockchainObj lb
                         (Z.of_nat (length (map VRef blocs ++ [VRef b'])))
                         (proof_hash (link hs (length hs)) d
                            (sha256 (concat_str (signatures ts (entropy w)))) m)]>
                 (<[b' := BlockObj q (link hs (length hs)) d
                            (sha256 (concat_str (signatures ts (entropy w))))
                            (Some m)]> (heap w1))) w1) !! x
            = Some (TransactionsObj lx cx) ->
            heap w !! x = Some (TransactionsObj lx cx) /\
            exists tx, heap w !! lx = Some (PyList (map VTransaction tx))).
  { intros x lx cx Hx Hlook.
    destruct (Hpools x Hx) as (lx' & cx' & tx & Hx0 & Hlx & _).
    rewrite (Hold _ _ Hx0) in Hlook by congruence.
    injection Hlook as <- <-. split; [done | by exists tx]. }
  intros lb2 cnt2 last2 items2 b Hbc2 Hlb2 Hb.
  simpl in Hbc2, Hlb2.
  rewrite lookup_insert_eq in Hbc2. injection Hbc2 as <- _ _.
  rewrite lookup_insert_ne in Hlb2 by done.
  rewrite lookup_insert_ne in Hlb2 by congruence.
  rewrite lookup_insert_ne in Hlb2 by done.
  rewrite lookup_insert_eq in Hlb2. injection Hlb2 as <-.
  apply elem_of_app in Hb as [Hb|Hb].
  - (* a block that was there *)
    destruct (Hcheck _ _ _ _ b Hbc Hlb Hb)
      as (vt & lv & cv & tv & ph & dv & n & r0
          & Hb0 & Hvt & Hlv & Hnotin & Hlists).
    assert (Hlvlb : lv <> lb).
    { intros ->. rewrite Hlb in Hlv. injection Hlv as Hmap.
      destruct blocs as [|b0 blocs]; [by apply elem_of_nil in Hb|].
      by destruct tv. }
    exists vt, lv, cv, tv, ph, dv, n, r0.
    split; [apply (Hold _ _ Hb0); congruence|].
    split; [apply (Hold _ _ Hvt); congruence|].
    split; [apply (Hold _ _ Hlv); congruence|].
    split; [done|].
    intros x lx cx Hx Hlook.
    destruct (Hpool2 x lx cx Hx Hlook) as (Hx0 & _). by eapply Hlists.
  - (* the new block *)
    apply list_elem_of_singleton in Hb. injection Hb as ->.
    exists q, l', c, ts, (link hs (length hs)), d, (Some m), (entropy w).
    split; [simpl; rewrite lookup_insert_ne by congruence;
            by rewrite lookup_insert_eq|].
    split; [simpl; by rewrite !lookup_insert_ne by congruence|].
    split; [simpl; by rewrite !lookup_insert_ne by congruence|].
    split.
    + intros Hqin. destruct (Hpools q Hqin) as (? & ? & ? & Hq0 & _). congruence.
    + intros x lx cx Hx Hlook.
      destruct (Hpool2 x lx cx Hx Hlook) as (_ & tx & Hlx). congruence.
Qed.

Lemma protocol_chain_checkable bc pools w hs :
  protocol bc pools w hs -> chain_checkable w bc pools.
Proof.
  induction 1 as [pools w0 w Hpools Hinit
                 |pools w w' hs p Hprot IH Hinit
                 |pools w w' hs p s r v Hprot IH Hin Hrun
                 |pools w w' hs p Hprot IH Hin Hrun
                 |pools w w1 wm w2 hs p b d fuel digest Hprot IH Hin
                    Hcreate Hlast Hmine Hmlb].
  - destruct (init_Blockchain w0) as (lb & bc' & Hlb & Hbc & Hne & Hrun).
    rewrite Hrun in Hinit. injection Hinit as -> <-.
    intros lb2 cnt last items b Hbc2 Hlb2 Hb. simpl in Hbc2, Hlb2.
    rewrite lookup_insert_eq in Hbc2. injection Hbc2 as <- _ _.
    rewrite lookup_insert_ne, lookup_insert_eq in Hlb2 by done.
    injection Hlb2 as <-. by apply elem_of_nil in Hb.
  - pose proof (protocol_chain_inv _ _ _ _ Hprot)
      as (lb & blocs & _ & Hbc & Hlb & _ & _).
    destruct (init_Transactions w) as (l0 & p' & Hl0 & Hp' & Hne & Hinit').
    intros lb2 cnt last items b Hbc2 Hlb2 Hb.
    apply (block_checkable_new_pool pools w b p w' Hinit).
    rewrite Hinit' in Hinit. injection Hinit as -> <-.
    simpl in Hbc2, Hlb2.
    rewrite !lookup_insert_ne in Hbc2 by congruence.
    rewrite Hbc in Hbc2. injection Hbc2 as <- _ _.
    rewrite !lookup_insert_ne in Hlb2 by congruence.
    by eapply IH.
  - pose proof (protocol_chain_inv _ _ _ _ Hprot)
      as (lb & blocs & _ & Hbc & Hlb & _ & Hpools).
    destruct (Hpools p Hin) as (l & c & ts & Hp & Hl & Hllb).
    rewrite (transfer_pool _ _ _ _ s r v _ Hp Hl) in Hrun.
    injection Hrun as <-.
    intros lb2 cnt last items b Hbc2 Hlb2 Hb.
    apply (block_checkable_pool_write pools w b p l c _ _ _ _ _ Hin Hp Hl).
    simpl in Hbc2, Hlb2.
    rewrite !lookup_insert_ne in Hbc2 by congruence.
    rewrite Hbc in Hbc2. injection Hbc2 as <- _ _.
    rewrite !lookup_insert_ne in Hlb2 by congruence.
    by eapply IH.
  - pose proof (protocol_chain_inv _ _ _ _ Hprot)
      as (lb & blocs & _ & Hbc & Hlb & _ & Hpools).
    destruct (Hpools p Hin) as (l & c & ts & Hp & Hl & Hllb).
    rewrite (clear_pool _ _ _ _ _ Hp Hl) in Hrun.
    injection Hrun as <-.
    intros lb2 cnt last items b Hbc2 Hlb2 Hb.
    apply (block_checkable_pool_write pools w b p l c _ _ _ _ _ Hin Hp Hl).
    simpl in Hbc2, Hlb2.
    rewrite !lookup_insert_ne in Hbc2 by congruence.
    rewrite Hbc in Hbc2. injection Hbc2 as <- _ _.
    rewrite !lookup_insert_ne in Hlb2 by congruence.
    by eapply IH.
  - pose proof (protocol_chain_inv _ _ _ _ Hprot) as Hinv.
    by eapply chain_checkable_round.
Qed.

(** X16.  With a deterministic signer, every block of the chain can be
    checked at any time: in any state the protocol reaches, each block in
    the list of the chain still owns the transactions it was created over,
    and [compute_transaction_hash] on it returns the transaction hash the
    block stores, without writing an object, whatever was transferred into
    the pools or cleared from them since. *)
Theorem chain_transaction_hashes_verify (bc : loc) (pools : gset loc)
    (w : world) (hs : list string) :
  deterministic_signing ->
  protocol bc pools w hs ->
  exists lb cnt last blocs,
    heap w !! bc = Some (BlockchainObj lb cnt last) /\
    heap w !! lb = Some (PyList (map VRef blocs)) /\
    length blocs = length hs /\
    forall b, b ∈ blocs ->
      exists vt ph d th n w',
        heap w !! b = Some (BlockObj vt ph d th n) /\
        Block.compute_transaction_hash b w = Ok th w' /\
        heap w' = heap w /\ ticks w' = ticks w.
Proof.
  intros Hdet Hprot.
  pose proof (protocol_chain_inv _ _ _ _ Hprot)
    as (lb & blocs & Hlen & Hbc & Hlb & _ & _).
  pose proof (protocol_chain_checkable _ _ _ _ Hprot) as Hcheck.
  exists lb, (Z.of_nat (length blocs)), (link hs (length hs)), blocs.
  split; [done|]. split; [done|]. split; [done|].
  intros b Hb.
  destruct (Hcheck _ _ _ _ b Hbc Hlb)
    as (vt & l & c & ts & ph & d & n & r0 & Hb0 & Hvt & Hl & _ & _).
  { apply list_elem_of_fmap. by exists b. }
  exists vt, ph, d, (sha256 (concat_str (signatures ts r0))), n.
  eexists. split; [exact Hb0|].
  rewrite (compute_transaction_hash_eq _ _ _ _ _ _ _ _ _ _ Hb0 Hvt Hl).
  rewrite (signatures_deterministic ts Hdet (entropy w) r0).
  by repeat split.
Qed.

End Checkable.

(** * The claims on concrete worlds *)

(** The claim of the specification fails on a fresh chain: the error is
    [IndexError], not [EmptyChainError]. *)
Lemma mine_last_block_fresh_chain_raises_IndexError :
  heap fresh_chain_world !! chain = Some (BlockchainObj chain_list 0 "") /\
  heap fresh_chain_world !! chain_list = Some (PyList []) /\
  Blockchain.mine_last_block 0 chain fresh_chain_world
  = Raise IndexError fresh_chain_world /\
  Blockchain.mine_last_block 0 chain fresh_chain_world
  <> Raise EmptyChainError fresh_chain_world.
Proof.
  split; [reflexivity|]. split; [reflexivity|].
  assert (Hrun : Blockchain.mine_last_block 0 chain fresh_chain_world
                 = Raise IndexError fresh_chain_world) by reflexivity.
  split; [exact Hrun|]. rewrite Hrun. discriminate.
Qed.

Lemma mine_last_block_empty_chain_witness :
  Blockchain.mine_last_block 7 chain fresh_chain_world
  = Raise IndexError fresh_chain_world.
Proof.
  apply (mine_last_block_empty_chain 7 chain chain_list ""); reflexivity.
Defined.

Lemma snapshot_survives_clear_witness :
  exists q w1 w2,
    Transactions.__copy__ pool pool_world = Ok q w1 /\
    Transactions.clear pool w1 = Ok tt w2 /\
    q <> pool /\
    is_pool w1 q [VTransaction t_alice_bob; VTransaction t_bob_alice] 2 /\
    is_pool w2 q [VTransaction t_alice_bob; VTransaction t_bob_alice] 2 /\
    is_pool w2 pool [] 0.
Proof.
  apply (snapshot_survives_clear pool).
  exists pool_list. split; reflexivity.
Defined.

(** The claim of the specification fails at difficulty 65: a digest has
    sixty-four characters, so the loop of [mine] runs for ever. *)
Lemma mine_at_difficulty_65_never_returns :
  heap (one_block_world 65) !! first_block
  = Some (BlockObj snapshot "" 65
            "e3b0c44298fc1c149afbf4c8996fb92427ae41e4649b934ca495991b7852b855"
            None) /\
  (forall fuel, Block.mine fuel first_block (one_block_world 65) = OutOfFuel) /\
  (forall fuel,
     Blockchain.mine_last_block fuel chain (one_block_world 65) = OutOfFuel).
Proof.
  assert (Hb : heap (one_block_world 65) !! first_block
               = Some (BlockObj snapshot "" 65
                    "e3b0c44298fc1c149afbf4c8996fb92427ae41e4649b934ca495991b7852b855"
                    None)) by reflexivity.
  assert (Hfit : zeros_fit 65) by reflexivity.
  split; [exact Hb|]. split; intros fuel.
  - rewrite (mine_search _ _ _ _ _ _ _ _ Hb Hfit). by rewrite search_above_64.
  - assert (Hc : heap (one_block_world 65) !! chain
                 = Some (BlockchainObj chain_list
                           (Z.of_nat (length ([] ++ [VRef first_block]))) ""))
      by reflexivity.
    assert (Hl : heap (one_block_world 65) !! chain_list
                 = Some (PyList ([] ++ [VRef first_block]))) by reflexivity.
    rewrite (mine_last_block_chain fuel _ _ _ _ _ _ _ _ _ _ _ Hc Hl Hb Hfit).
    by rewrite search_above_64.
Qed.

Lemma mine_stops_at_least_suitable_nonce_witness :
  exists n, 0 <= n <= 5 /\
    suits "" 2 "e3b0c44298fc1c149afbf4c8996fb92427ae41e4649b934ca495991b7852b855" n = true /\
    (forall k, 0 <= k < n ->
       suits "" 2 "e3b0c44298fc1c149afbf4c8996fb92427ae41e4649b934ca495991b7852b855" k = false) /\
    forall fuel, (Z.to_nat n <= fuel)%nat ->
      Block.mine fuel first_block (one_block_world 2)
      = Ok (proof_hash "" 2
              "e3b0c44298fc1c149afbf4c8996fb92427ae41e4649b934ca495991b7852b855" n)
           (with_heap
              (<[first_block := BlockObj snapshot "" 2
                   "e3b0c44298fc1c149afbf4c8996fb92427ae41e4649b934ca495991b7852b855"
                   (Some n)]> (heap (one_block_world 2)))
              (one_block_world 2)).
Proof.
  refine (proj1 (proj2 (mine_stops_at_least_suitable_nonce
            first_block snapshot "" 2
            "e3b0c44298fc1c149afbf4c8996fb92427ae41e4649b934ca495991b7852b855"
            None (one_block_world 2) _ _)) _ 5 _ _).
  - reflexivity.
  - lia.
  - reflexivity.
  - lia.
  - reflexivity.
Defined.

(** The block of [one_block_world 2], and its mining: the search stops at
    nonce 5. *)
Lemma one_block_world_block :
  heap (one_block_world 2) !! first_block
  = Some (BlockObj snapshot "" 2 empty_hash None).
Proof. reflexivity. Qed.

(** The miniature platform can build the suffixes of the worlds below. *)
Lemma toy_zeros_fit_2 : zeros_fit 2.
Proof. reflexivity. Qed.

Lemma toy_zeros_fit_1 : zeros_fit 1.
Proof. reflexivity. Qed.

Lemma search_one_block_world : search "" 2 empty_hash 5 0 = Some 5.
Proof. vm_compute. reflexivity. Qed.

Lemma mine_one_block_world :
  Block.mine 5 first_block (one_block_world 2)
  = Ok (proof_hash "" 2 empty_hash 5) mined_world.
Proof.
  rewrite (mine_search _ _ _ _ _ _ _ _ one_block_world_block toy_zeros_fit_2).
  by rewrite search_one_block_world.
Qed.

Lemma mine_twice_same_nonce_witness :
  Block.mine 5 first_block mined_world
  = Ok (proof_hash "" 2 empty_hash 5) mined_world.
Proof.
  exact (proj1 (mine_twice_same_nonce 5 first_block _ (one_block_world 2) _
                  mine_one_block_world)).
Defined.



Lemma pool_count_is_length_witness :
  exists w', Transactions.transfer pool alice bob 3 pool_world = Ok tt w'
             /\ pool_inv w' pool.
Proof.
  apply (proj1 (proj2 pool_count_is_length) pool_world pool alice bob 3).
  exists [VTransaction t_alice_bob; VTransaction t_bob_alice], pool_list.
  split; reflexivity.
Defined.

(** The signer of the miniature platform ignores the random source. *)
Lemma toy_deterministic_signing : deterministic_signing.
Proof. intros k h r r'. reflexivity. Qed.



(** Two rounds of the protocol, step by step. *)
Lemma round1_created_block :
  heap round1_created !! first_block
  = Some (BlockObj snapshot "" 2 empty_hash None).
Proof. reflexivity. Qed.

Lemma round1_mine :
  Block.mine 5 first_block round1_created
  = Ok hash1
       (with_heap
          (<[first_block := BlockObj snapshot "" 2 empty_hash (Some 5)]>
             (heap round1_created)) round1_created).
Proof.
  rewrite (mine_search _ _ _ _ _ _ _ _ round1_created_block toy_zeros_fit_2).
  by rewrite search_one_block_world.
Qed.

Lemma round1_mine_last_block :
  Blockchain.mine_last_block 5 chain round1_created = Ok tt round1_mined.
Proof.
  assert (Hc : heap round1_created !! chain
               = Some (BlockchainObj chain_list
                         (Z.of_nat (length ([] ++ [VRef first_block]))) ""))
    by reflexivity.
  assert (Hl : heap round1_created !! chain_list
               = Some (PyList ([] ++ [VRef first_block]))) by reflexivity.
  rewrite (mine_last_block_chain _ _ _ _ _ _ _ _ _ _ _ _
             Hc Hl round1_created_block toy_zeros_fit_2).
  by rewrite search_one_block_world.
Qed.

Lemma round2_created_block :
  heap round2_created !! second_block
  = Some (BlockObj second_snapshot hash1 1 transaction_hash2 None).
Proof. reflexivity. Qed.

Lemma round2_search : search hash1 1 transaction_hash2 1 0 = Some 1.
Proof. vm_compute. reflexivity. Qed.

Lemma round2_mine :
  Block.mine 1 second_block round2_created
  = Ok hash2
       (with_heap
          (<[second_block :=
               BlockObj second_snapshot hash1 1 transaction_hash2 (Some 1)]>
             (heap round2_created)) round2_created).
Proof.
  rewrite (mine_search _ _ _ _ _ _ _ _ round2_created_block toy_zeros_fit_1).
  by rewrite round2_search.
Qed.

Lemma round2_mine_last_block :
  Blockchain.mine_last_block 1 chain round2_created = Ok tt round2_mined.
Proof.
  assert (Hc : heap round2_created !! chain
               = Some (BlockchainObj chain_list
                         (Z.of_nat (length ([VRef first_block]
                                            ++ [VRef second_block]))) hash1))
    by reflexivity.
  assert (Hl : heap round2_created !! chain_list
               = Some (PyList ([VRef first_block] ++ [VRef second_block])))
    by reflexivity.
  rewrite (mine_last_block_chain _ _ _ _ _ _ _ _ _ _ _ _
             Hc Hl round2_created_block toy_zeros_fit_1).
  by rewrite round2_search.
Qed.

Lemma pool_is_known : pool ∈ ({[pool]} ∪ ∅ : gset loc).
Proof. apply elem_of_union_l, elem_of_singleton. reflexivity. Qed.

Lemma two_rounds_protocol :
  protocol chain ({[pool]} ∪ ∅) round2_mined (([] ++ [hash1]) ++ [hash2]).
Proof.
  assert (H0 : protocol chain ∅ fresh_chain_world []).
  { apply (protocol_fresh chain ∅ empty_world fresh_chain_world).
    - intros p Hp. by apply not_elem_of_empty in Hp.
    - reflexivity. }
  assert (H1 : protocol chain ({[pool]} ∪ ∅) round1_pool []).
  { apply (protocol_new_pool chain ∅ fresh_chain_world round1_pool [] pool H0).
    reflexivity. }
  assert (H2 : protocol chain ({[pool]} ∪ ∅) round1_mined ([] ++ [hash1])).
  { eapply (protocol_round chain _ round1_pool round1_created _ round1_mined
              [] pool first_block 2 5%nat hash1 H1 pool_is_known).
    - reflexivity.
    - reflexivity.
    - exact round1_mine.
    - exact round1_mine_last_block. }
  assert (H3 : protocol chain ({[pool]} ∪ ∅) round2_pool ([] ++ [hash1])).
  { apply (protocol_transfer chain _ round1_mined round2_pool _ pool alice bob 10
             H2 pool_is_known).
    reflexivity. }
  eapply (protocol_round chain _ round2_pool round2_created _ round2_mined
            _ pool second_block 1 1%nat hash2 H3 pool_is_known).
  - reflexivity.
  - reflexivity.
  - exact round2_mine.
  - exact round2_mine_last_block.
Qed.

Lemma blocks_link_to_previous_proof_hash_witness :
  exists blocs,
    linked round2_mined chain blocs (([] ++ [hash1]) ++ [hash2]) /\
    (forall b, blocs !! 0%nat = Some b ->
       exists vt d th n, heap round2_mined !! b = Some (BlockObj vt "" d th n)) /\
    (forall i b digest,
       blocs !! S i = Some b -> (([] ++ [hash1]) ++ [hash2]) !! i = Some digest ->
       exists vt d th n,
         heap round2_mined !! b = Some (BlockObj vt digest d th n)).
Proof.
  exact (blocks_link_to_previous_proof_hash chain _ round2_mined _
           two_rounds_protocol).
Defined.

(** * The further properties on concrete worlds *)

Lemma mined_world_block :
  heap mined_world !! first_block
  = Some (BlockObj snapshot "" 2 empty_hash (Some 5)).
Proof. reflexivity. Qed.

Lemma suits_one_block_world : suits "" 2 empty_hash 5 = true.
Proof. vm_compute. reflexivity. Qed.

Lemma mined_world_validates :
  Block.validate_difficulty first_block
    (str_dict (header "" 2 empty_hash (Some 5))) mined_world
  = Ok (hash1, true) mined_world.
Proof.
  rewrite (validate_difficulty_Block _ _ _ _ _ _ _ _ mined_world_block
             toy_zeros_fit_2).
  change (endswith _ _) with (suits "" 2 empty_hash 5).
  by rewrite suits_one_block_world.
Qed.

Lemma validate_difficulty_monotone_witness :
  mined_world = mined_world /\
  (- 2 ^ 63 <= 1 ->
   Block.validate_difficulty second_block
     (str_dict (header "" 2 empty_hash (Some 5))) round2_created
   = Ok (hash1, true) round2_created) /\
  (1 < - 2 ^ 63 ->
   Block.validate_difficulty second_block
     (str_dict (header "" 2 empty_hash (Some 5))) round2_created
   = Raise OverflowError round2_created).
Proof.
  apply (validate_difficulty_monotone first_block second_block snapshot
           second_snapshot "" hash1 2 1 empty_hash transaction_hash2
           (Some 5) None _ hash1 mined_world mined_world round2_created).
  - exact mined_world_block.
  - exact round2_created_block.
  - lia.
  - exact mined_world_validates.
Defined.

Lemma empty_hash_is_hex : all_chars is_hexdigit empty_hash.
Proof.
  assert (Heq : empty_hash = sha256 "") by (vm_compute; reflexivity).
  rewrite Heq. apply sha256_is_hex.
Qed.

Lemma header_text_determines_header_witness :
  "" = "" /\ 2 = 2 /\ empty_hash = empty_hash /\ @None Z = None.
Proof.
  apply (header_text_determines_header first_block first_block snapshot
           snapshot "" "" 2 2 empty_hash empty_hash None None
           (header "" 2 empty_hash None) (header "" 2 empty_hash None)
           round1_created round1_created (one_block_world 2)
           (one_block_world 2)).
  - exact round1_created_block.
  - exact one_block_world_block.
  - exact I.
  - exact empty_hash_is_hex.
  - exact I.
  - exact empty_hash_is_hex.
  - reflexivity.
  - reflexivity.
  - reflexivity.
Defined.

Lemma pool_world_pool :
  heap pool_world !! pool = Some (TransactionsObj pool_list 2).
Proof. reflexivity. Qed.

Lemma pool_world_pool_list :
  heap pool_world !! pool_list
  = Some (PyList (map VTransaction [t_alice_bob; t_bob_alice])).
Proof. reflexivity. Qed.



Lemma transfer_appends_at_end_witness :
  exists w',
    Transactions.transfer pool bob alice 3 pool_world = Ok tt w' /\
    heap w' !! pool = Some (TransactionsObj pool_list (2 + 1)) /\
    heap w' !! pool_list
    = Some (PyList (map VTransaction [t_alice_bob; t_bob_alice] ++
              [VTransaction
                 (MkTransaction bob alice 3 (wall_clock (ticks pool_world)))])) /\
    (forall x, x <> pool -> x <> pool_list ->
       heap w' !! x = heap pool_world !! x) /\
    ticks w' = S (ticks pool_world) /\ entropy w' = entropy pool_world.
Proof.
  apply (transfer_appends_at_end pool pool_list _ 2 bob alice 3 pool_world).
  - exact pool_world_pool.
  - exact pool_world_pool_list.
Defined.





Lemma round1_created_chain :
  heap round1_created !! chain
  = Some (BlockchainObj chain_list
            (Z.of_nat (length ([] ++ [VRef first_block]))) "").
Proof. reflexivity. Qed.

Lemma round1_created_chain_list :
  heap round1_created !! chain_list = Some (PyList ([] ++ [VRef first_block])).
Proof. reflexivity. Qed.

Lemma mine_last_block_seals_last_block_witness :
  (forall fuel w',
     Blockchain.mine_last_block fuel chain round1_created = Ok tt w' ->
     exists n,
       0 <= n /\ suits "" 2 empty_hash n = true /\
       (exists prefix, proof_hash "" 2 empty_hash n = prefix +:+ str_mul "0" 2) /\
       heap w'
       = <[chain := BlockchainObj chain_list
                      (Z.of_nat (length ([] ++ [VRef first_block])))
                      (proof_hash "" 2 empty_hash n)]>
           (<[first_block := BlockObj snapshot "" 2 empty_hash (Some n)]>
              (heap round1_created)) /\
       ticks w' = ticks round1_created /\ entropy w' = entropy round1_created) /\
  (zeros_fit 2 ->
   (forall fuel e w',
      Blockchain.mine_last_block fuel chain round1_created <> Raise e w') /\
   (forall m, 0 <= m -> suits "" 2 empty_hash m = true ->
      exists w',
        Blockchain.mine_last_block (Z.to_nat m) chain round1_created
        = Ok tt w')) /\
  (forall e, str_mul_error "0" 2 = Some e -> str_int_allowed 2 ->
     forall fuel,
       Blockchain.mine_last_block fuel chain round1_created
       = Raise e
           (with_heap
              (<[first_block := BlockObj snapshot "" 2 empty_hash (Some 0)]>
                 (heap round1_created)) round1_created)).
Proof.
  apply (mine_last_block_seals_last_block chain chain_list first_block snapshot
           "" [] "" 2 empty_hash None round1_created).
  - exact round1_created_chain.
  - exact round1_created_chain_list.
  - exact round1_created_block.
Defined.

Lemma mine_last_block_twice_witness :
  Blockchain.mine_last_block 5 chain round1_mined = Ok tt round1_mined.
Proof.
  apply (mine_last_block_twice 5 chain chain_list first_block snapshot
           "" [] "" 2 empty_hash None round1_created round1_mined).
  - exact round1_created_chain.
  - exact round1_created_chain_list.
  - exact round1_created_block.
  - exact round1_mine_last_block.
Defined.

Lemma round2_created_snapshot :
  heap round2_created !! second_snapshot
  = Some (TransactionsObj second_snapshot_list 1).
Proof. reflexivity. Qed.

Lemma round2_created_snapshot_list :
  heap round2_created !! second_snapshot_list
  = Some (PyList (map VTransaction [t_alice_bob])).
Proof. reflexivity. Qed.

Lemma transaction_hash_reproducible_witness :
  exists w',
    Block.compute_transaction_hash second_block round2_created
    = Ok (sha256 (concat_str (signatures [t_alice_bob] (entropy round2_pool)))) w' /\
    heap w' = heap round2_created /\ ticks w' = ticks round2_created.
Proof.
  apply (transaction_hash_reproducible second_block second_snapshot
           second_snapshot_list hash1 1 None 1 [t_alice_bob]
           (entropy round2_pool) round2_created).
  - exact toy_deterministic_signing.
  - exact round2_created_block.
  - exact round2_created_snapshot.
  - exact round2_created_snapshot_list.
Defined.

Lemma protocol_keeps_chain_valid_witness :
  exists blocs,
    chain_valid round2_mined chain blocs (([] ++ [hash1]) ++ [hash2]).
Proof.
  exact (protocol_keeps_chain_valid chain _ round2_mined _ two_rounds_protocol).
Defined.

Lemma one_block_world_0_block :
  heap (one_block_world 0) !! first_block
  = Some (BlockObj snapshot "" 0 empty_hash None).
Proof. reflexivity. Qed.

Lemma mine_nonpositive_difficulty_stops_at_zero_witness :
  (- 2 ^ 63 <= 0 ->
   Block.mine 0 first_block (one_block_world 0)
   = Ok (sha256 (str_dict (header "" 0 empty_hash (Some 0))))
        (with_heap
           (<[first_block := BlockObj snapshot "" 0 empty_hash (Some 0)]>
              (heap (one_block_world 0)))
           (one_block_world 0))) /\
  (0 < - 2 ^ 63 -> str_int_allowed 0 ->
   Block.mine 0 first_block (one_block_world 0)
   = Raise OverflowError
       (with_heap
          (<[first_block := BlockObj snapshot "" 0 empty_hash (Some 0)]>
             (heap (one_block_world 0)))
          (one_block_world 0))).
Proof.
  apply (mine_nonpositive_difficulty_stops_at_zero 0 first_block snapshot
           "" 0 empty_hash None (one_block_world 0)).
  - exact one_block_world_0_block.
  - lia.
Defined.

Lemma one_block_world_70_block :
  heap (one_block_world 70) !! first_block
  = Some (BlockObj snapshot "" 70 empty_hash None).
Proof. reflexivity. Qed.

Lemma mine_difficulty_above_64_never_returns_witness :
  (forall n, suits "" 70 empty_hash n = false) /\
  (forall fuel digest w',
     Block.mine fuel first_block (one_block_world 70) <> Ok digest w') /\
  (zeros_fit 70 ->
   (forall fuel, Block.mine fuel first_block (one_block_world 70) = OutOfFuel) /\
   (forall fuel bc lb last items,
      heap (one_block_world 70) !! bc
      = Some (BlockchainObj lb
                (Z.of_nat (length (items ++ [VRef first_block]))) last) ->
      heap (one_block_world 70) !! lb
      = Some (PyList (items ++ [VRef first_block])) ->
      Blockchain.mine_last_block fuel bc (one_block_world 70) = OutOfFuel)) /\
  (forall e, str_mul_error "0" 70 = Some e -> str_int_allowed 70 ->
     forall fuel,
       Block.mine fuel first_block (one_block_world 70)
       = Raise e
           (with_heap
              (<[first_block := BlockObj snapshot "" 70 empty_hash (Some 0)]>
                 (heap (one_block_world 70)))
              (one_block_world 70))) /\
  (2 ^ 63 <= 70 -> str_mul_error "0" 70 = Some OverflowError) /\
  (str_capacity < 70 < 2 ^ 63 -> str_mul_error "0" 70 = Some MemoryError).
Proof.
  apply (mine_difficulty_above_64_never_returns first_block snapshot "" 70
           empty_hash None (one_block_world 70)).
  - exact one_block_world_70_block.
  - lia.
Defined.

Lemma round2_mined_first_block :
  heap round2_mined !! first_block
  = Some (BlockObj snapshot "" 2 empty_hash (Some 5)).
Proof. reflexivity. Qed.

Lemma existing_blocks_are_final_witness :
  (forall p s r v w', p ∈ ({[pool]} ∪ ∅ : gset loc) ->
     Transactions.transfer p s r v round2_mined = Ok tt w' ->
     heap w' !! first_block
     = Some (BlockObj snapshot "" 2 empty_hash (Some 5))) /\
  (forall p w', p ∈ ({[pool]} ∪ ∅ : gset loc) ->
     Transactions.clear p round2_mined = Ok tt w' ->
     heap w' !! first_block
     = Some (BlockObj snapshot "" 2 empty_hash (Some 5))) /\
  (forall p w', Transactions.__init__ round2_mined = Ok p w' ->
     heap w' !! first_block
     = Some (BlockObj snapshot "" 2 empty_hash (Some 5))) /\
  (forall p d fuel w1 w2, p ∈ ({[pool]} ∪ ∅ : gset loc) ->
     Blockchain.create_block chain p d round2_mined = Ok tt w1 ->
     Blockchain.mine_last_block fuel chain w1 = Ok tt w2 ->
     heap w1 !! first_block
     = Some (BlockObj snapshot "" 2 empty_hash (Some 5)) /\
     heap w2 !! first_block
     = Some (BlockObj snapshot "" 2 empty_hash (Some 5))).
Proof.
  apply (existing_blocks_are_final chain _ round2_mined _ first_block _
           two_rounds_protocol round2_mined_first_block).
  by exists snapshot, "", 2, empty_hash, (Some 5).
Defined.

Lemma chain_transaction_hashes_verify_witness :
  exists lb cnt last blocs,
    heap round2_mined !! chain = Some (BlockchainObj lb cnt last) /\
    heap round2_mined !! lb = Some (PyList (map VRef blocs)) /\
    length blocs = length (([] ++ [hash1]) ++ [hash2]) /\
    forall b, b ∈ blocs ->
      exists vt ph d th n w',
        heap round2_mined !! b = Some (BlockObj vt ph d th n) /\
        Block.compute_transaction_hash b round2_mined = Ok th w' /\
        heap w' = heap round2_mined /\ ticks w' = ticks round2_mined.
Proof.
  exact (chain_transaction_hashes_verify chain _ round2_mined _
           toy_deterministic_signing two_rounds_protocol).
Defined.
